(** * sorted-array-set: a reactive sorted set (src/sortedArraySet.ts)

    A shallow embedding of [createSortedArraySet] and of the closures it
    builds ([add], [remove], [has], [getTopN], [clear]), together with
    the properties of the specification that concern them.

    The store owns three pieces of mutable state: the arrays it
    allocates (a heap of array objects, since a published snapshot is a
    reference that subscribers keep), the [BehaviorSubject] [data$]
    (its current value and the values it held before), and the JavaScript
    [Set] [uniqueElements]. *)

From Stdlib Require Import ZArith Sorted Permutation.
From stdpp Require Import gmap strings list sorting.

Local Open Scope Z_scope.
Set Warnings "-clear-no-such-hyp".

(** ** JavaScript values *)

(** The element type [T] is generic; at run time an element is a
    JavaScript value.  Numbers are modelled by integers plus [NaN]
    (the two zeros are identified, as both equalities below identify
    them); objects are compared by reference. *)
Inductive value : Type :=
  | VUndefined
  | VNull
  | VBool (b : bool)
  | VNum (n : Z)
  | VNaN
  | VStr (s : string)
  | VObj (ref : nat).

Global Instance value_eq_dec : EqDecision value.
Proof. solve_decision. Defined.

Definition value_code (v : value) : unit + unit + bool + Z + unit + string + nat :=
  match v with
  | VUndefined => inl (inl (inl (inl (inl (inl tt)))))
  | VNull => inl (inl (inl (inl (inl (inr tt)))))
  | VBool b => inl (inl (inl (inl (inr b))))
  | VNum n => inl (inl (inl (inr n)))
  | VNaN => inl (inl (inr tt))
  | VStr s => inl (inr s)
  | VObj r => inr r
  end.

Definition value_decode (c : unit + unit + bool + Z + unit + string + nat) : value :=
  match c with
  | inl (inl (inl (inl (inl (inl _))))) => VUndefined
  | inl (inl (inl (inl (inl (inr _))))) => VNull
  | inl (inl (inl (inl (inr b)))) => VBool b
  | inl (inl (inl (inr n))) => VNum n
  | inl (inl (inr _)) => VNaN
  | inl (inr s) => VStr s
  | inr r => VObj r
  end.

Global Instance value_countable : Countable value.
Proof.
  apply (inj_countable' value_code value_decode).
  intros []; reflexivity.
Defined.

(** [element == null]: loose equality with [null] holds of [null] and
    [undefined] only. *)
Definition loose_equals_null (v : value) : bool :=
  match v with
  | VUndefined | VNull => true
  | _ => false
  end.

(** [a === b]: strict equality.  [NaN] is not strictly equal to itself. *)
Definition strict_equals (a b : value) : bool :=
  match a, b with
  | VNaN, _ | _, VNaN => false
  | _, _ => bool_decide (a = b)
  end.

(** ** Arrays *)

(** SortCompare of [Array.prototype.sort]: [undefined] sorts after every
    other value without the comparator being called; otherwise the sign
    of [comparefn(x, y)] decides. *)
Definition sort_compare (comparefn : value → value → Z) (x y : value) : Z :=
  match x, y with
  | VUndefined, VUndefined => 0
  | VUndefined, _ => 1
  | _, VUndefined => -1
  | _, _ => comparefn x y
  end.

(** [Array.prototype.sort] is stable.  For a consistent comparator its
    result is the stable sorted permutation, whatever algorithm the
    engine runs; a stable insertion sort computes it. *)
Fixpoint sort_insert (comparefn : value → value → Z) (x : value)
    (l : list value) : list value :=
  match l with
  | [] => [x]
  | y :: l' =>
      if sort_compare comparefn x y <=? 0 then x :: y :: l'
      else y :: sort_insert comparefn x l'
  end.

Definition js_sort (comparefn : value → value → Z) (l : list value) : list value :=
  foldr (sort_insert comparefn) [] l.

(** [data.slice(0, n)]: a negative end counts from the end of the
    array; the result is clamped to the array. *)
Definition js_slice0 (n : Z) (l : list value) : list value :=
  let len := Z.of_nat (length l) in
  let final := if n <? 0 then Z.max (len + n) 0 else Z.min n len in
  take (Z.to_nat final) l.

(** ** The store *)

(** A [Set] compares with SameValueZero, which differs from [===] on
    [NaN] only ([NaN] is in a set it was added to): on [value] it is
    Leibniz equality, so [uniqueElements] is a [gset value]. *)

(** An array object is named by its index in the heap. *)
Definition loc := nat.

Record store : Type := Store {
  heap : list (list value);       (* the array objects allocated so far *)
  data_value : loc;               (* [data$.getValue()] *)
  data_past : list loc;           (* values [data$] held before, newest first *)
  uniqueElements : gset value;    (* the dedup index, a [Set<T>] *)
  console : list string           (* [console.warn] output, oldest first *)
}.

Definition with_heap (h : list (list value)) (s : store) : store :=
  Store h (data_value s) (data_past s) (uniqueElements s) (console s).
Definition with_uniqueElements (u : gset value) (s : store) : store :=
  Store (heap s) (data_value s) (data_past s) u (console s).
Definition with_console (c : list string) (s : store) : store :=
  Store (heap s) (data_value s) (data_past s) (uniqueElements s) c.

(** Contents of the array at [r]. *)
Definition deref (s : store) (r : loc) : list value := default [] (heap s !! r).

(** The snapshot [data$] currently holds. *)
Definition published (s : store) : list value := deref s (data_value s).

(** Every reference [data$] has delivered, newest first. *)
Definition snapshots (s : store) : list loc := data_value s :: data_past s.

(** Number of [data$.next] calls so far. *)
Definition publications (s : store) : nat := length (data_past s).

(** The store just after [new BehaviorSubject([])] and [new Set()]. *)
Definition initial : store := Store [[]] 0%nat [] ∅ [].

(** ** Commands on the store *)

Definition M (A : Type) : Type := store → A * store.

Global Instance M_ret : MRet M := λ A a s, (a, s).
Global Instance M_bind : MBind M := λ A B k m s, let (a, s') := m s in k a s'.

Definition exec {A} (m : M A) (s : store) : store := snd (m s).
Definition eval {A} (m : M A) (s : store) : A := fst (m s).

(** [data$.getValue()] *)
Definition getValue : M loc := λ s, (data_value s, s).

(** [data$.next(r)] *)
Definition next (r : loc) : M unit := λ s,
  (tt, Store (heap s) r (data_value s :: data_past s) (uniqueElements s) (console s)).

(** A new array object holding [l]. *)
Definition array_new (l : list value) : M loc := λ s,
  (length (heap s), with_heap (heap s ++ [l]) s).

(** [[...a, x]] *)
Definition array_spread_append (a : loc) (x : value) : M loc := λ s,
  array_new (deref s a ++ [x]) s.

(** [a.filter(p)] *)
Definition array_filter (p : value → bool) (a : loc) : M loc := λ s,
  array_new (List.filter p (deref s a)) s.

(** [a.sort(comparefn)], in place. *)
Definition array_sort (comparefn : value → value → Z) (a : loc) : M unit := λ s,
  (tt, with_heap (<[a := js_sort comparefn (deref s a)]> (heap s)) s).

(** [a.length] *)
Definition array_length (a : loc) : M nat := λ s, (length (deref s a), s).

(** [a.pop()], in place; [undefined] on an empty array. *)
Definition array_pop (a : loc) : M value := λ s,
  (List.last (deref s a) VUndefined,
   with_heap (<[a := removelast (deref s a)]> (heap s)) s).

(** [uniqueElements.has(x)] *)
Definition set_has (x : value) : M bool := λ s,
  (bool_decide (x ∈ uniqueElements s), s).
(** [uniqueElements.add(x)] *)
Definition set_add (x : value) : M unit := λ s,
  (tt, with_uniqueElements ({[x]} ∪ uniqueElements s) s).
(** [uniqueElements.delete(x)] *)
Definition set_delete (x : value) : M unit := λ s,
  (tt, with_uniqueElements (uniqueElements s ∖ {[x]}) s).
(** [uniqueElements.clear()] *)
Definition set_clear : M unit := λ s, (tt, with_uniqueElements ∅ s).

(** [console.warn(msg)] *)
Definition console_warn (msg : string) : M unit := λ s,
  (tt, with_console (console s ++ [msg]) s).

(** ** createSortedArraySet *)

Record SortedArraySetOptions : Type := Options {
  sortFn : value → value → Z;   (* the sign of the result orders the arguments *)
  maxSize : option Z            (* an integer, or [None] for [undefined] *)
}.

Section closures.
Context (options : SortedArraySetOptions).

Definition add (element : value) : M unit :=
  if loose_equals_null element then
    console_warn "Cannot add null or undefined to SortedArraySet"
  else
    present ← set_has element ;
    if negb present then
      set_add element ;;
      currentData ← getValue;
      newData ← array_spread_append currentData element;
      array_sort (sortFn options) newData ;;
      len ← array_length newData;
      (match maxSize options with
       | Some m =>
           if m <? Z.of_nat len then
             lastElement ← array_pop newData;
             if negb (strict_equals lastElement VUndefined)
             then set_delete lastElement
             else mret tt
           else mret tt
       | None => mret tt
       end) ;;
      next newData
    else mret tt.

Definition remove (element : value) : M unit :=
  set_delete element ;;
  currentData ← getValue;
  newData ← array_filter (λ e, negb (strict_equals e element)) currentData;
  array_sort (sortFn options) newData ;;
  next newData.

Definition has (element : value) : M bool := set_has element.

(** What [data$] has delivered to an observer subscribed since the
    store was created, oldest first: the initial empty array, then the
    argument of each [next].  (An array is not written to after it is
    published, so its contents are read off the heap as it is now.) *)
Definition emissions (s : store) : list (list value) :=
  rev (map (deref s) (snapshots s)).

(** [data$.pipe(map(data => data.slice(0, n)))]: the stream that
    carries the slice of each emission of [data$]. *)
Definition getTopN (n : Z) (s : store) : list (list value) :=
  map (js_slice0 n) (emissions s).

Definition clear : M unit :=
  set_clear ;;
  newData ← array_new [];
  next newData.

End closures.

(** ** The handle *)

(** What a property of the returned object can be. *)
Inductive member : Type :=
  | ElementAction (f : value → M unit)                  (* (element: T) => void *)
  | ElementQuery (f : value → M bool)                   (* (element: T) => boolean *)
  | Projection (f : Z → store → list (list value))      (* (n: number) => Observable<T[]> *)
  | Subscribe (f : store → list (list value)).          (* the read channel *)

(** [data$.asObservable()]: of an rxjs [Observable] only [subscribe] is
    modelled; its other members are operators on the same stream. *)
Definition asObservable : list (string * member) :=
  [("subscribe", Subscribe emissions)].

(** [Object.assign(target, source)]: the properties of [source] are set
    on [target]. *)
Definition object_assign (target source : list (string * member)) :
    list (string * member) :=
  source ++ target.

Definition createSortedArraySet (options : SortedArraySetOptions) :
    list (string * member) :=
  object_assign asObservable
    [("add", ElementAction (add options));
     ("remove", ElementAction (remove options));
     ("has", ElementQuery has);
     ("getTopN", Projection getTopN)].

(** [handle[name]] *)
Fixpoint get_member (name : string) (handle : list (string * member)) : option member :=
  match handle with
  | [] => None
  | (k, m) :: rest => if String.eqb k name then Some m else get_member name rest
  end.

Inductive argument : Type :=
  | NoArgument
  | ElementArgument (element : value)
  | NumberArgument (n : Z).

Inductive outcome : Type :=
  | ReturnedVoid (s : store)
  | ReturnedBool (b : bool) (s : store)
  | ReturnedStream (l : list (list value)) (s : store)
  | ThrewTypeError.                       (* [handle.name is not a function] *)

(** [handle.name(arg)] *)
Definition invoke (handle : list (string * member)) (name : string)
    (arg : argument) (s : store) : outcome :=
  match get_member name handle, arg with
  | Some (ElementAction f), ElementArgument e => ReturnedVoid (exec (f e) s)
  | Some (ElementAction f), NoArgument => ReturnedVoid (exec (f VUndefined) s)
  | Some (ElementQuery f), ElementArgument e => ReturnedBool (eval (f e) s) s
  | Some (ElementQuery f), NoArgument => ReturnedBool (eval (f VUndefined) s) s
  | Some (Projection f), NumberArgument n => ReturnedStream (f n s) s
  | Some (Subscribe f), _ => ReturnedStream (f s) s
  | _, _ => ThrewTypeError
  end.

(** ** Sequences of calls *)

Inductive call : Type :=
  | Add (element : value)
  | Remove (element : value)
  | Clear.

Definition perform (options : SortedArraySetOptions) (c : call) : M unit :=
  match c with
  | Add e => add options e
  | Remove e => remove options e
  | Clear => clear
  end.

Definition run (options : SortedArraySetOptions) (cs : list call) (s : store) : store :=
  foldl (λ s c, exec (perform options c) s) s cs.

(** A store state that some sequence of calls produces from the empty store. *)
Definition reachable (options : SortedArraySetOptions) (s : store) : Prop :=
  ∃ cs, s = run options cs initial.

(** ** Comparators *)

(** A consistent comparator, as [Array.prototype.sort] requires of its
    argument: the sign is antisymmetric and "not after" is transitive
    (a total preorder; ties between distinct values are allowed). *)
Record consistent (comparefn : value → value → Z) : Prop := {
  consistent_sign : ∀ a b, Z.sgn (comparefn a b) = - Z.sgn (comparefn b a);
  consistent_trans : ∀ a b c,
    comparefn a b <= 0 → comparefn b c <= 0 → comparefn a c <= 0
}.

(** [a] is not after [b] in the order the sort uses. *)
Definition sort_le (comparefn : value → value → Z) (a b : value) : Prop :=
  sort_compare comparefn a b <= 0.

(** [(a, b) => a - b], the comparator of the documentation's example,
    on numbers; a [NaN] difference counts as zero in the sort, which
    makes it inconsistent as soon as [NaN] meets two different numbers. *)
Definition numeric (a b : value) : Z :=
  match a, b with
  | VNum x, VNum y => x - y
  | _, _ => 0
  end.

(** [(a, b) => rank(a) - rank(b)], a comparator that is consistent on
    all values: it is [(a, b) => a - b] on numbers and ties every other
    value with zero. *)
Definition rank (v : value) : Z :=
  match v with
  | VNum n => n
  | _ => 0
  end.

Definition by_rank (a b : value) : Z := rank a - rank b.

(** ** Notions used in the statements *)

(** [newData.length > maxSize], with [maxSize] defined *)
Definition overflows (options : SortedArraySetOptions) (l : list value) : bool :=
  match maxSize options with
  | Some m => m <? Z.of_nat (length l)
  | None => false
  end.

(** The array [add] publishes when [element] is not in the index. *)
Definition added_snapshot (options : SortedArraySetOptions) (element : value)
    (current : list value) : list value :=
  let sorted := js_sort (sortFn options) (current ++ [element]) in
  if overflows options sorted then removelast sorted else sorted.

(** The index [add] leaves when [element] was not in it. *)
Definition added_index (options : SortedArraySetOptions) (element : value)
    (current : list value) (index : gset value) : gset value :=
  let sorted := js_sort (sortFn options) (current ++ [element]) in
  let lastElement := List.last sorted VUndefined in
  if overflows options sorted && negb (strict_equals lastElement VUndefined)
  then ({[element]} ∪ index) ∖ {[lastElement]}
  else {[element]} ∪ index.

(** The array [remove] publishes. *)
Definition removed_snapshot (options : SortedArraySetOptions) (element : value)
    (current : list value) : list value :=
  js_sort (sortFn options)
    (List.filter (λ e, negb (strict_equals e element)) current).

(** No call puts [null] or [undefined] in the published sequence. *)
Definition defined_elements (s : store) : Prop :=
  Forall (λ v, loose_equals_null v = false) (published s).

(** Sorted ascending per [sortFn]. *)
Definition ascending (options : SortedArraySetOptions) (l : list value) : Prop :=
  StronglySorted (λ a b, sortFn options a b <= 0) l.

(** The dedup index and the published sequence hold the same elements,
    each once. *)
Definition in_sync (s : store) : Prop :=
  (∀ x, x ∈ uniqueElements s ↔ x ∈ published s) ∧ NoDup (published s).

(** With [A] the set of the elements added so far: the published
    sequence is drawn from [A], nothing left out of it sorts before
    one of its elements, and it is as long as the bound allows. *)
Definition keeps_smallest (options : SortedArraySetOptions) (m : Z)
    (A : gset value) (s : store) : Prop :=
  (∀ x, x ∈ published s → x ∈ A) ∧
  (∀ x p, x ∈ A → x ∉ published s → p ∈ published s →
          sort_le (sortFn options) p x) ∧
  Z.of_nat (length (published s)) = Z.min m (Z.of_nat (size A)).

(** Every reference [data$] has delivered names an array of the heap. *)
Definition snapshots_allocated (s : store) : Prop :=
  ∀ r, r ∈ snapshots s → (r < length (heap s))%nat.

(** The specification's reading of the projection: the first
    [min(n, length)] elements. *)
Definition first_min (n : Z) (l : list value) : list value :=
  take (Z.to_nat (Z.min n (Z.of_nat (length l)))) l.

(** What holds between the index and the published sequence in every
    reachable state: the index is within the sequence, every published
    element other than [NaN] is in the index, and only [NaN] can be
    published twice. *)
Definition index_agrees (s : store) : Prop :=
  (∀ x, x ∈ uniqueElements s → x ∈ published s) ∧
  (∀ x, x ∈ published s → x ≠ VNaN → x ∈ uniqueElements s) ∧
  NoDup (filter (λ v, v ≠ VNaN) (published s)).

(** The calls that take the [console.warn] path. *)
Definition warns (c : call) : bool :=
  match c with
  | Add e => loose_equals_null e
  | _ => false
  end.

(** A comparator that ties no two different values of [l]: a total
    order on them. *)
Definition tie_free (comparefn : value → value → Z) (l : list value) : Prop :=
  ∀ a b, a ∈ l → b ∈ l → comparefn a b = 0 → a = b.

(** ** What one call does to the store *)

Section effects.
Context (options : SortedArraySetOptions).

Lemma heap_fresh_lookup (h : list (list value)) (l : list value) :
  (h ++ [l]) !! length h = Some l.
Proof. by rewrite list_lookup_middle. Qed.

Lemma heap_fresh_update (h : list (list value)) (l l' : list value) :
  <[length h := l']> (h ++ [l]) = h ++ [l'].
Proof.
  rewrite insert_app_r_alt; [|lia]. by rewrite Nat.sub_diag.
Qed.

Ltac run_commands :=
  repeat first
    [ progress unfold exec, eval, mbind, M_bind, mret, M_ret, getValue, next,
        array_new, array_spread_append, array_filter, array_sort, array_length,
        array_pop, set_has, set_add, set_delete, set_clear, console_warn,
        deref, snapshots, with_heap, with_uniqueElements, with_console
    | progress cbn [fst snd heap data_value data_past uniqueElements console
                    default negb andb]
    | rewrite heap_fresh_lookup
    | rewrite heap_fresh_update ].

Lemma add_nullish (e : value) (s : store) :
  loose_equals_null e = true →
  exec (add options e) s =
    with_console (console s ++ ["Cannot add null or undefined to SortedArraySet"]) s.
Proof. intros H. unfold add. by rewrite H. Qed.

Lemma add_present (e : value) (s : store) :
  loose_equals_null e = false → e ∈ uniqueElements s →
  exec (add options e) s = s.
Proof.
  intros Hn Hin. unfold add. rewrite Hn. run_commands.
  by rewrite bool_decide_eq_true_2.
Qed.

Lemma add_fresh (e : value) (s : store) :
  loose_equals_null e = false → e ∉ uniqueElements s →
  exec (add options e) s =
    Store (heap s ++ [added_snapshot options e (published s)])
          (length (heap s))
          (snapshots s)
          (added_index options e (published s) (uniqueElements s))
          (console s).
Proof.
  intros Hn Hin.
  unfold add, added_snapshot, added_index, overflows, published.
  rewrite Hn. run_commands. rewrite bool_decide_eq_false_2 by done.
  run_commands.
  set (sorted := js_sort _ _).
  destruct (maxSize options) as [m|]; run_commands; [|done].
  destruct (m <? _); run_commands; [|done].
  by destruct (strict_equals _ VUndefined).
Qed.

Lemma remove_effect (e : value) (s : store) :
  exec (remove options e) s =
    Store (heap s ++ [removed_snapshot options e (published s)])
          (length (heap s))
          (snapshots s)
          (uniqueElements s ∖ {[e]})
          (console s).
Proof. unfold remove, removed_snapshot, published. by run_commands. Qed.

Lemma clear_effect (s : store) :
  exec clear s =
    Store (heap s ++ [[]]) (length (heap s)) (snapshots s) ∅ (console s).
Proof. reflexivity. Qed.

End effects.

(** ** The sort *)

Section sort.
Context (comparefn : value → value → Z).

Lemma sort_insert_perm (x : value) (l : list value) :
  sort_insert comparefn x l ≡ₚ x :: l.
Proof.
  induction l as [|y l IH]; simpl; [done|].
  destruct (_ <=? _); [done|]. rewrite IH. apply Permutation_swap.
Qed.

Lemma js_sort_perm (l : list value) : js_sort comparefn l ≡ₚ l.
Proof.
  induction l as [|x l IH]; simpl; [done|].
  by rewrite sort_insert_perm, IH.
Qed.

Lemma js_sort_length (l : list value) : length (js_sort comparefn l) = length l.
Proof. by rewrite js_sort_perm. Qed.

Lemma js_sort_elem_of (x : value) (l : list value) :
  x ∈ js_sort comparefn l ↔ x ∈ l.
Proof. by rewrite js_sort_perm. Qed.

Lemma sort_compare_defined (a b : value) :
  a ≠ VUndefined → b ≠ VUndefined →
  sort_compare comparefn a b = comparefn a b.
Proof. by destruct a, b. Qed.

Context (Hcmp : consistent comparefn).

Lemma sort_le_total (a b : value) :
  sort_le comparefn a b ∨ sort_le comparefn b a.
Proof.
  unfold sort_le.
  pose proof (consistent_sign _ Hcmp a b).
  destruct a, b; simpl; lia.
Qed.

Lemma sort_le_refl (a : value) : sort_le comparefn a a.
Proof. by destruct (sort_le_total a a). Qed.

Lemma sort_le_trans (a b c : value) :
  sort_le comparefn a b → sort_le comparefn b c → sort_le comparefn a c.
Proof.
  unfold sort_le.
  pose proof (consistent_trans _ Hcmp a b c).
  destruct a, b, c; simpl; lia.
Qed.

Lemma sort_insert_sorted (x : value) (l : list value) :
  StronglySorted (sort_le comparefn) l →
  StronglySorted (sort_le comparefn) (sort_insert comparefn x l).
Proof.
  induction 1 as [|y l Hl IH Hy]; simpl.
  { repeat constructor. }
  destruct (Z.leb_spec (sort_compare comparefn x y) 0) as [Hle|Hgt].
  - constructor; [by constructor|].
    constructor; [done|].
    eapply Forall_impl; [exact Hy|]. intros z Hz. by eapply sort_le_trans.
  - assert (sort_le comparefn y x) as Hyx.
    { destruct (sort_le_total y x) as [|Hxy]; [done|]. unfold sort_le in Hxy. lia. }
    constructor; [done|].
    rewrite sort_insert_perm. by constructor.
Qed.

Lemma js_sort_sorted (l : list value) :
  StronglySorted (sort_le comparefn) (js_sort comparefn l).
Proof.
  induction l as [|x l IH]; simpl; [constructor|].
  by apply sort_insert_sorted.
Qed.

(** Sorting a sorted array changes nothing. *)
Lemma js_sort_id (l : list value) :
  StronglySorted (sort_le comparefn) l → js_sort comparefn l = l.
Proof.
  induction 1 as [|x l Hl IH Hx]; simpl; [done|].
  rewrite IH. destruct Hx as [|y l Hxy _]; simpl; [done|].
  unfold sort_le in Hxy. by rewrite (proj2 (Z.leb_le _ _) Hxy).
Qed.

Lemma removelast_sorted (l : list value) :
  StronglySorted (sort_le comparefn) l →
  StronglySorted (sort_le comparefn) (removelast l).
Proof.
  intros Hl. destruct (decide (l = [])) as [->|Hne]; [done|].
  rewrite (app_removelast_last VUndefined Hne) in Hl.
  by apply StronglySorted_app_1_l in Hl.
Qed.

(** The last element of a sorted array is a maximum. *)
Lemma last_sorted_max (l : list value) (y : value) :
  StronglySorted (sort_le comparefn) l → y ∈ l →
  sort_le comparefn y (List.last l VUndefined).
Proof.
  intros Hl Hy. assert (l ≠ []) as Hne by (by intros ->; inv Hy).
  rewrite (app_removelast_last VUndefined Hne) in Hl, Hy.
  apply elem_of_app in Hy as [Hy|Hy].
  - eapply StronglySorted_app_1_elem_of; [done..|]. by apply list_elem_of_singleton.
  - apply list_elem_of_singleton in Hy as ->. apply sort_le_refl.
Qed.

End sort.

(** ** Facts about single calls *)

Lemma strict_equals_undefined (x : value) :
  strict_equals x VUndefined = bool_decide (x = VUndefined).
Proof. by destruct x. Qed.

(** Apart from [NaN], [===] decides equality of values. *)
Lemma strict_equals_decide (x e : value) :
  e ≠ VNaN → strict_equals x e = bool_decide (x = e).
Proof. intros He. by destruct x, e. Qed.

Lemma strict_equals_NaN (x : value) : strict_equals x VNaN = false.
Proof. by destruct x. Qed.

Lemma published_fresh (h : list (list value)) (c : list value) (past : list loc)
    (u : gset value) (out : list string) :
  published (Store (h ++ [c]) (length h) past u out) = c.
Proof. unfold published, deref. simpl. by rewrite heap_fresh_lookup. Qed.

Section calls.
Context (options : SortedArraySetOptions).

(** The three ways [add] can go. *)
Lemma add_cases (e : value) (s : store) :
  (loose_equals_null e = true ∧
     exec (add options e) s =
       with_console (console s ++ ["Cannot add null or undefined to SortedArraySet"]) s)
  ∨ (loose_equals_null e = false ∧ e ∈ uniqueElements s ∧
     exec (add options e) s = s)
  ∨ (loose_equals_null e = false ∧ (e ∉ uniqueElements s) ∧
     exec (add options e) s =
       Store (heap s ++ [added_snapshot options e (published s)])
             (length (heap s)) (snapshots s)
             (added_index options e (published s) (uniqueElements s))
             (console s)).
Proof.
  destruct (loose_equals_null e) eqn:Hn.
  - left. split; [done|]. by apply add_nullish.
  - right. destruct (decide (e ∈ uniqueElements s)) as [Hin|Hin].
    + left. repeat split; [done|]. by apply add_present.
    + right. repeat split; [done|]. by apply add_fresh.
Qed.

Lemma run_snoc (cs : list call) (c : call) (s : store) :
  run options (cs ++ [c]) s = exec (perform options c) (run options cs s).
Proof. unfold run. by rewrite foldl_app. Qed.

(** A property that holds initially and that every call of a given
    kind preserves holds after any sequence of such calls. *)
Lemma run_preserves (P : store → Prop) (Q : call → Prop) (cs : list call) (s : store) :
  P s →
  (∀ c s', Q c → P s' → P (exec (perform options c) s')) →
  Forall Q cs →
  P (run options cs s).
Proof.
  intros Hs Hstep. induction cs as [|c cs IH] using rev_ind; [done|].
  intros [Hcs Hc]%Forall_app. rewrite run_snoc.
  apply Hstep; [by inv Hc|by apply IH].
Qed.

Lemma added_snapshot_subset (e x : value) (l : list value) :
  x ∈ added_snapshot options e l → x ∈ l ∨ x = e.
Proof.
  unfold added_snapshot. set (sorted := js_sort _ _).
  intros Hx.
  assert (x ∈ sorted) as Hs.
  { destruct (overflows options sorted); [|done].
    destruct (decide (sorted = [])) as [E|Hne]; [rewrite E in Hx; by inv Hx|].
    rewrite (app_removelast_last VUndefined Hne). apply elem_of_app. by left. }
  apply js_sort_elem_of, elem_of_app in Hs as [?|Hs]; [by left|].
  right. by apply list_elem_of_singleton in Hs.
Qed.

Lemma perform_defined_elements (c : call) (s : store) :
  defined_elements s → defined_elements (exec (perform options c) s).
Proof.
  unfold defined_elements. intros Hs. destruct c as [e|e|]; simpl.
  - destruct (add_cases e s) as [[_ ->]|[(_ & _ & ->)|(Hn & _ & ->)]]; [done..|].
    rewrite published_fresh. apply Forall_forall. intros x Hx.
    apply added_snapshot_subset in Hx as [Hx| ->]; [|done].
    by eapply Forall_forall in Hs.
  - rewrite remove_effect, published_fresh. unfold removed_snapshot.
    apply Forall_forall. intros x Hx.
    apply js_sort_elem_of, list_elem_of_In, filter_In in Hx as [Hx _].
    eapply Forall_forall in Hs; [done|]. by apply list_elem_of_In.
  - rewrite clear_effect, published_fresh. constructor.
Qed.

Lemma reachable_defined_elements (s : store) :
  reachable options s → defined_elements s.
Proof.
  intros [cs ->].
  apply (run_preserves defined_elements (λ _, True)).
  - constructor.
  - intros ? ? _. apply perform_defined_elements.
  - by apply Forall_forall.
Qed.

End calls.

(** ** Invariants of the reachable states *)

Lemma loose_equals_null_defined (x : value) :
  loose_equals_null x = false → x ≠ VUndefined.
Proof. by intros H ->. Qed.

Lemma sorted_defined_ascending (options : SortedArraySetOptions) (l : list value) :
  Forall (λ v, loose_equals_null v = false) l →
  StronglySorted (sort_le (sortFn options)) l → ascending options l.
Proof.
  intros Hdef. induction 1 as [|x l Hl IH Hx]; [constructor|].
  apply Forall_cons in Hdef as [Hdx Hdl].
  constructor; [by apply IH|].
  apply Forall_forall. intros y Hy.
  pose proof (proj1 (Forall_forall _ _) Hx y Hy) as Hxy.
  pose proof (proj1 (Forall_forall _ _) Hdl y Hy) as Hdy.
  unfold sort_le in Hxy.
  by rewrite sort_compare_defined in Hxy by by apply loose_equals_null_defined.
Qed.

Lemma length_removelast (l : list value) : length (removelast l) = pred (length l).
Proof.
  destruct (decide (l = [])) as [->|Hne]; [done|].
  rewrite (app_removelast_last VUndefined Hne) at 2.
  rewrite length_app. simpl. lia.
Qed.

Section invariants.
Context (options : SortedArraySetOptions).

(** When the new array overflows, [add] publishes it without its last
    element, which leaves the index unless it is [undefined]. *)
Lemma added_overflow (e : value) (l : list value) (u : gset value) :
  overflows options (js_sort (sortFn options) (l ++ [e])) = true →
  let x := List.last (js_sort (sortFn options) (l ++ [e])) VUndefined in
  js_sort (sortFn options) (l ++ [e]) = added_snapshot options e l ++ [x] ∧
  added_index options e l u =
    if bool_decide (x = VUndefined) then {[e]} ∪ u else ({[e]} ∪ u) ∖ {[x]}.
Proof.
  intros Hov x. unfold added_snapshot, added_index. fold x. rewrite Hov.
  split.
  - apply app_removelast_last. intros E.
    pose proof (js_sort_length (sortFn options) (l ++ [e])) as Hlen.
    rewrite E, length_app in Hlen. simpl in Hlen. lia.
  - rewrite strict_equals_undefined. by destruct (bool_decide _).
Qed.

Lemma added_no_overflow (e : value) (l : list value) (u : gset value) :
  overflows options (js_sort (sortFn options) (l ++ [e])) = false →
  added_snapshot options e l = js_sort (sortFn options) (l ++ [e]) ∧
  added_index options e l u = {[e]} ∪ u.
Proof. intros Hov. unfold added_snapshot, added_index. by rewrite Hov. Qed.

(** *** Sortedness *)

Lemma perform_sorted (c : call) (s : store) :
  consistent (sortFn options) →
  StronglySorted (sort_le (sortFn options)) (published s) →
  StronglySorted (sort_le (sortFn options)) (published (exec (perform options c) s)).
Proof.
  intros Hcmp Hs. destruct c as [e|e|]; simpl.
  - destruct (add_cases options e s) as [[_ ->]|[(_ & _ & ->)|(_ & _ & ->)]]; [done..|].
    rewrite published_fresh. unfold added_snapshot.
    destruct (overflows _ _); [apply removelast_sorted|];
      by apply js_sort_sorted.
  - rewrite remove_effect, published_fresh. by apply js_sort_sorted.
  - rewrite clear_effect, published_fresh. constructor.
Qed.

Lemma reachable_sorted (s : store) :
  consistent (sortFn options) → reachable options s →
  StronglySorted (sort_le (sortFn options)) (published s).
Proof.
  intros Hcmp [cs ->].
  apply (run_preserves options
           (λ s, StronglySorted (sort_le (sortFn options)) (published s))
           (λ _, True)).
  - constructor.
  - intros ? ? _. by apply perform_sorted.
  - by apply Forall_forall.
Qed.

Lemma reachable_ascending (s : store) :
  consistent (sortFn options) → reachable options s →
  ascending options (published s).
Proof.
  intros Hcmp Hs. apply sorted_defined_ascending.
  - by apply (reachable_defined_elements options).
  - by apply reachable_sorted.
Qed.

(** *** The bound *)

Lemma perform_bounded (m : Z) (c : call) (s : store) :
  maxSize options = Some m → 0 <= m →
  Z.of_nat (length (published s)) <= m →
  Z.of_nat (length (published (exec (perform options c) s))) <= m.
Proof.
  intros Hm Hpos Hs. destruct c as [e|e|]; simpl.
  - destruct (add_cases options e s) as [[_ ->]|[(_ & _ & ->)|(_ & _ & ->)]]; [done..|].
    rewrite published_fresh. unfold added_snapshot, overflows. rewrite Hm.
    destruct (Z.ltb_spec m (Z.of_nat (length (js_sort (sortFn options) (published s ++ [e])))))
      as [Hlt|Hge]; [|done].
    rewrite length_removelast, js_sort_length, length_app. simpl. lia.
  - rewrite remove_effect, published_fresh. unfold removed_snapshot.
    rewrite js_sort_length.
    pose proof (filter_length_le (λ x, negb (strict_equals x e)) (published s)). lia.
  - rewrite clear_effect, published_fresh. simpl. lia.
Qed.

Lemma reachable_bounded (m : Z) (s : store) :
  maxSize options = Some m → 0 <= m → reachable options s →
  Z.of_nat (length (published s)) <= m.
Proof.
  intros Hm Hpos [cs ->].
  apply (run_preserves options
           (λ s, Z.of_nat (length (published s)) <= m) (λ _, True)).
  - simpl. lia.
  - intros ? ? _. by apply perform_bounded.
  - by apply Forall_forall.
Qed.

End invariants.

Section synchronisation.
Context (options : SortedArraySetOptions).

Lemma elem_of_removed_snapshot (e y : value) (l : list value) :
  y ∈ removed_snapshot options e l ↔ y ∈ l ∧ strict_equals y e = false.
Proof.
  unfold removed_snapshot.
  rewrite js_sort_elem_of, !list_elem_of_In, filter_In.
  destruct (strict_equals y e); simpl; split; by intros [].
Qed.

Lemma NoDup_removed_snapshot (e : value) (l : list value) :
  NoDup l → NoDup (removed_snapshot options e l).
Proof.
  intros Hl. unfold removed_snapshot. rewrite js_sort_perm.
  by apply NoDup_ListNoDup, List.NoDup_filter, NoDup_ListNoDup.
Qed.

Lemma NoDup_sorted_append (e : value) (l : list value) :
  NoDup l → e ∉ l → NoDup (js_sort (sortFn options) (l ++ [e])).
Proof.
  intros Hl He. rewrite js_sort_perm. apply NoDup_app.
  split; [done|]. split; [|apply NoDup_singleton].
  intros y Hy ->%list_elem_of_singleton. done.
Qed.

(** Every call other than [remove(NaN)] keeps the index and the
    published sequence in step. *)
Lemma perform_in_sync (c : call) (s : store) :
  c ≠ Remove VNaN →
  defined_elements s → in_sync s → in_sync (exec (perform options c) s).
Proof.
  intros Hc Hdef [Hiff Hnd]. destruct c as [e|e|]; simpl.
  - destruct (add_cases options e s) as [[_ ->]|[(_ & _ & ->)|(Hn & Hin & ->)]];
      [done..|].
    unfold in_sync. rewrite published_fresh. simpl.
    assert (e ∉ published s) as Hnotin by (by rewrite <-Hiff).
    pose proof (NoDup_sorted_append e _ Hnd Hnotin) as Hsorted.
    assert (∀ y, y ∈ js_sort (sortFn options) (published s ++ [e]) ↔
                 y ∈ published s ∨ y = e) as Hmem.
    { intros y. rewrite js_sort_elem_of, elem_of_app, list_elem_of_singleton. done. }
    destruct (overflows options (js_sort (sortFn options) (published s ++ [e])))
      eqn:Hov.
    + destruct (added_overflow options e (published s) (uniqueElements s) Hov)
        as [Hsnoc ->].
      set (x := List.last _ _) in *.
      set (kept := added_snapshot options e (published s)) in *.
      rewrite Hsnoc in Hsorted, Hmem.
      apply NoDup_app in Hsorted as (Hkept & Hx & _).
      assert (x ≠ VUndefined) as Hxdef.
      { assert (x ∈ published s ∨ x = e) as [Hxin| ->].
        { apply Hmem, elem_of_app. right. by apply list_elem_of_singleton. }
        - apply loose_equals_null_defined.
          by eapply (proj1 (Forall_forall _ _) Hdef).
        - by apply loose_equals_null_defined. }
      rewrite bool_decide_eq_false_2 by done.
      split; [|done]. intros y.
      specialize (Hmem y). rewrite elem_of_app, list_elem_of_singleton in Hmem.
      specialize (Hx y). rewrite list_elem_of_singleton in Hx.
      specialize (Hiff y). set_solver.
    + destruct (added_no_overflow options e (published s) (uniqueElements s) Hov)
        as [-> ->].
      split; [|done]. intros y. specialize (Hmem y). specialize (Hiff y). set_solver.
  - rewrite remove_effect. unfold in_sync. rewrite published_fresh. simpl.
    split; [|by apply NoDup_removed_snapshot].
    intros y. rewrite elem_of_removed_snapshot, strict_equals_decide by congruence.
    rewrite bool_decide_eq_false. specialize (Hiff y). set_solver.
  - rewrite clear_effect. unfold in_sync. rewrite published_fresh. simpl.
    split; [set_solver|constructor].
Qed.

Lemma run_in_sync (cs : list call) :
  Forall (λ c, c ≠ Remove VNaN) cs →
  in_sync (run options cs initial).
Proof.
  intros Hcs.
  cut (defined_elements (run options cs initial) ∧ in_sync (run options cs initial)).
  { by intros [_ ?]. }
  apply (run_preserves options (λ s, defined_elements s ∧ in_sync s)
           (λ c, c ≠ Remove VNaN)); [| |done].
  - split; [constructor|]. split; [set_solver|constructor].
  - intros c s Hc [Hdef Hsync]. split.
    + by apply perform_defined_elements.
    + by apply perform_in_sync.
Qed.

End synchronisation.

(** ** Bounded retention *)

Lemma length_lt_size (l : list value) (A : gset value) (y : value) :
  NoDup l → (∀ x, x ∈ l → x ∈ A) → y ∈ A → y ∉ l → (length l < size A)%nat.
Proof.
  intros Hnd Hsub HyA Hyl.
  rewrite <-(size_list_to_set (C:=gset value)) by done.
  apply subset_size. set_solver.
Qed.

Section retention.
Context (options : SortedArraySetOptions) (m : Z).
Context (Hmax : maxSize options = Some m) (Hcmp : consistent (sortFn options)).

Lemma add_keeps_smallest (A : gset value) (e : value) (s : store) :
  loose_equals_null e = false →
  in_sync s → keeps_smallest options m A s →
  keeps_smallest options m ({[e]} ∪ A) (exec (add options e) s).
Proof.
  intros Hn [Hiff Hnd] (Hsub & Hrest & Hlen).
  destruct (add_cases options e s) as [[? _]|[(_ & Hin & ->)|(_ & Hin & ->)]];
    [congruence| |].
  { assert ({[e]} ∪ A = A) as -> by (apply Hiff, Hsub in Hin; set_solver).
    done. }
  assert (e ∉ published s) as Hnotin by (by rewrite <-Hiff).
  pose proof (NoDup_sorted_append options e _ Hnd Hnotin) as Hsnd.
  pose proof (js_sort_sorted _ Hcmp (published s ++ [e])) as Hsorted.
  pose proof (js_sort_length (sortFn options) (published s ++ [e])) as Hslen.
  rewrite length_app in Hslen. simpl in Hslen.
  assert (∀ y, y ∈ js_sort (sortFn options) (published s ++ [e]) ↔
               y ∈ published s ∨ y = e) as Hmem.
  { intros y. by rewrite js_sort_elem_of, elem_of_app, list_elem_of_singleton. }
  assert (e ∈ A → Z.of_nat (length (published s)) = m) as Hfull.
  { intros HeA. pose proof (length_lt_size _ _ _ Hnd Hsub HeA Hnotin). lia. }
  assert (e ∉ A → size ({[e]} ∪ A) = S (size A)) as Hgrow.
  { intros HeA. rewrite size_union by set_solver. by rewrite size_singleton. }
  assert (e ∈ A → {[e]} ∪ A = A) as Hsame by set_solver.
  unfold keeps_smallest. rewrite published_fresh.
  destruct (overflows options (js_sort (sortFn options) (published s ++ [e])))
    eqn:Hov.
  - destruct (added_overflow options e (published s) ∅ Hov) as [Hsnoc _].
    unfold overflows in Hov. rewrite Hmax in Hov. apply Z.ltb_lt in Hov.
    set (x := List.last _ _) in *.
    set (kept := added_snapshot options e (published s)) in *.
    rewrite Hsnoc in Hsnd, Hsorted, Hmem, Hslen, Hov.
    rewrite length_app in Hslen, Hov. simpl in Hslen, Hov.
    apply NoDup_app in Hsnd as (_ & Hx & _).
    apply StronglySorted_app in Hsorted as (Hkx & _ & _).
    assert (∀ p, p ∈ kept → sort_le (sortFn options) p x) as Hle.
    { intros p Hp. apply Hkx; [done|]. by apply list_elem_of_singleton. }
    assert (∀ p, p ∈ kept → p ≠ x) as Hne.
    { intros p Hp ->. eapply Hx; [done|]. by apply list_elem_of_singleton. }
    assert (∀ y, y ∈ kept → y ∈ published s ∨ y = e) as Hkept.
    { intros y Hy. apply Hmem, elem_of_app. by left. }
    assert (x ∈ published s ∨ x = e) as Hxin.
    { apply Hmem, elem_of_app. right. by apply list_elem_of_singleton. }
    split; [|split].
    + intros y Hy. apply Hkept in Hy as [Hy| ->]; [|set_solver].
      apply Hsub in Hy. set_solver.
    + intros y p Hy Hynot Hp.
      destruct (decide (y = x)) as [->|Hyx]; [by apply Hle|].
      assert (¬ (y ∈ published s ∨ y = e)) as Hout.
      { rewrite <-Hmem, elem_of_app, list_elem_of_singleton. tauto. }
      assert (y ∈ A) as HyA by set_solver.
      destruct (Hkept p Hp) as [Hpin| ->].
      * apply Hrest; [done| tauto |done].
      * destruct Hxin as [Hxin|Hxe]; [|by destruct (Hne e Hp)].
        eapply sort_le_trans; [done|by apply Hle|].
        apply Hrest; [done|tauto|done].
    + destruct (decide (e ∈ A)) as [HeA|HeA].
      * rewrite (Hsame HeA). specialize (Hfull HeA). lia.
      * rewrite (Hgrow HeA). lia.
  - destruct (added_no_overflow options e (published s) ∅ Hov) as [-> _].
    unfold overflows in Hov. rewrite Hmax in Hov. apply Z.ltb_ge in Hov.
    assert (e ∉ A) as HeA.
    { intros HeA. specialize (Hfull HeA). lia. }
    assert (∀ y, y ∈ A → y ∈ published s) as Hall.
    { intros y Hy. destruct (decide (y ∈ published s)) as [|Hyn]; [done|].
      pose proof (length_lt_size _ _ _ Hnd Hsub Hy Hyn). lia. }
    split; [|split].
    + intros y [Hy| ->]%Hmem; [|set_solver]. apply Hsub in Hy. set_solver.
    + intros y p Hy Hynot _. exfalso. apply Hynot, Hmem.
      apply elem_of_union in Hy as [->%elem_of_singleton|Hy]; [by right|].
      left. by apply Hall.
    + rewrite (Hgrow HeA). lia.
Qed.

End retention.

(** ** Sequences of [add] calls *)

Lemma by_rank_consistent : consistent by_rank.
Proof. split; unfold by_rank; intros; lia. Qed.

Section additions.
Context (options : SortedArraySetOptions).

Lemma additions_reachable (es : list value) :
  reachable options (run options (Add <$> es) initial).
Proof. by exists (Add <$> es). Qed.

Lemma additions_in_sync (es : list value) :
  in_sync (run options (Add <$> es) initial).
Proof.
  apply run_in_sync, Forall_fmap, Forall_forall. by intros e _.
Qed.

Lemma additions_keep_smallest (m : Z) (es : list value) :
  maxSize options = Some m → 0 <= m → consistent (sortFn options) →
  keeps_smallest options m
    (list_to_set (filter (λ v, loose_equals_null v = false) es))
    (run options (Add <$> es) initial).
Proof.
  intros Hmax Hpos Hcmp. induction es as [|e es IH] using rev_ind.
  { unfold keeps_smallest.
    change (published (run options (Add <$> []) initial)) with (@nil value).
    rewrite filter_nil, list_to_set_nil, size_empty.
    split; [by intros x Hx; inv Hx|]. split; [by intros x p _ _ Hp; inv Hp|]. simpl. lia. }
  rewrite fmap_app. change (Add <$> [e]) with [Add e].
  rewrite run_snoc, filter_app. simpl.
  destruct (loose_equals_null e) eqn:Hn.
  - rewrite add_nullish by done.
    rewrite filter_cons_False, filter_nil, app_nil_r by (by rewrite Hn).
    exact IH.
  - rewrite filter_cons_True, filter_nil by done.
    replace (list_to_set (filter _ es ++ [e]))
      with ({[e]} ∪ list_to_set (filter (λ v, loose_equals_null v = false) es)
              : gset value)
      by (rewrite list_to_set_app_L; set_solver).
    apply add_keeps_smallest; [done..| |done].
    apply additions_in_sync.
Qed.

End additions.

(** C4: after each call of any sequence of [add] calls on the empty
    store, with [sortFn] a consistent comparator, the published sequence
    is sorted ascending per [sortFn]. *)
Theorem add_sequence_sorted (options : SortedArraySetOptions)
    (es : list value) (k : nat) :
  consistent (sortFn options) →
  ascending options (published (run options (Add <$> take k es) initial)).
Proof.
  intros Hcmp. apply reachable_ascending; [done|]. apply additions_reachable.
Qed.

Lemma add_sequence_sorted_witness :
  consistent (sortFn (Options by_rank (Some 3))) ∧
  ascending (Options by_rank (Some 3))
    (published (run (Options by_rank (Some 3))
                  (Add <$> take 3 [VNum 3; VNum 1; VNum 2; VNum 4]) initial)).
Proof.
  split; [exact by_rank_consistent|].
  apply (add_sequence_sorted (Options by_rank (Some 3))
           [VNum 3; VNum 1; VNum 2; VNum 4] 3 by_rank_consistent).
Defined.

(** C3: with [maxSize = m], after each call of any sequence of [add]
    calls on the empty store the published sequence is no longer than
    [m] and consists of the [m] smallest distinct elements added so far
    (all of them when there are fewer than [m]): it has no duplicates,
    is sorted, is drawn from the added elements, counts
    [min m (number of distinct added elements)], and no added element
    left out sorts before one that is kept. *)
Theorem bounded_add_sequence_keeps_smallest (options : SortedArraySetOptions)
    (m : Z) (es : list value) (k : nat) :
  maxSize options = Some m → 0 <= m → consistent (sortFn options) →
  let added := filter (λ v, loose_equals_null v = false) (take k es) in
  let s := run options (Add <$> take k es) initial in
  Z.of_nat (length (published s)) <= m ∧
  Z.of_nat (length (published s)) =
    Z.min m (Z.of_nat (size (list_to_set added : gset value))) ∧
  NoDup (published s) ∧
  ascending options (published s) ∧
  (∀ x, x ∈ published s → x ∈ added) ∧
  (∀ x p, x ∈ added → x ∉ published s → p ∈ published s →
          sortFn options p x <= 0).
Proof.
  intros Hmax Hpos Hcmp added s.
  destruct (additions_keep_smallest options m (take k es) Hmax Hpos Hcmp)
    as (Hsub & Hrest & Hlen).
  fold added in Hsub, Hrest, Hlen. fold s in Hsub, Hrest, Hlen.
  pose proof (additions_in_sync options (take k es)) as [_ Hnd]. fold s in Hnd.
  pose proof (reachable_defined_elements options s
                (additions_reachable options (take k es))) as Hdef.
  split; [lia|]. split; [done|]. split; [done|].
  split; [apply reachable_ascending; [done|apply additions_reachable]|].
  split.
  - intros x Hx. by apply (elem_of_list_to_set (C:=gset value)), Hsub.
  - intros x p Hx Hnot Hp.
    assert (sort_le (sortFn options) p x) as Hle.
    { apply Hrest; [by apply (elem_of_list_to_set (C:=gset value))|done..]. }
    unfold sort_le in Hle. rewrite sort_compare_defined in Hle; [done| |].
    + apply loose_equals_null_defined. by eapply (proj1 (Forall_forall _ _) Hdef).
    + apply loose_equals_null_defined. by apply list_elem_of_filter in Hx as [? _].
Qed.

Lemma bounded_add_sequence_keeps_smallest_witness :
  (maxSize (Options by_rank (Some 3)) = Some 3 ∧ 0 <= 3 ∧
   consistent (sortFn (Options by_rank (Some 3)))) ∧
  published (run (Options by_rank (Some 3))
               (Add <$> take 4 [VNum 3; VNum 1; VNum 2; VNum 4]) initial)
    = [VNum 1; VNum 2; VNum 3] ∧
  Z.of_nat (length (published (run (Options by_rank (Some 3))
               (Add <$> take 4 [VNum 3; VNum 1; VNum 2; VNum 4]) initial))) <= 3.
Proof.
  split; [split; [reflexivity|split; [lia|exact by_rank_consistent]]|].
  split; [reflexivity|].
  exact (proj1 (bounded_add_sequence_keeps_smallest (Options by_rank (Some 3)) 3
                  [VNum 3; VNum 1; VNum 2; VNum 4] 4
                  eq_refl ltac:(lia) by_rank_consistent)).
Defined.

(** ** Single [add] calls *)

(** C2: in a reachable store with [maxSize = m], when [add(e)] of an
    element that is not in the index makes the newly sorted sequence
    longer than [m], the call drops exactly the last element [x] of
    that sequence, which is a maximum under [sortFn], and deletes it
    from the index; what is published are the [m] other elements, and
    [e] itself is the one dropped when nothing published sorts after
    it. *)
Theorem add_overflow_evicts_last (options : SortedArraySetOptions) (m : Z)
    (e : value) (s : store) :
  maxSize options = Some m → 0 <= m → consistent (sortFn options) →
  reachable options s →
  loose_equals_null e = false →
  eval (has e) s = false →
  m < Z.of_nat (length (js_sort (sortFn options) (published s ++ [e]))) →
  let s' := exec (add options e) s in
  let sorted := js_sort (sortFn options) (published s ++ [e]) in
  let x := List.last sorted VUndefined in
  sorted = published s' ++ [x] ∧
  (∀ y, y ∈ published s ++ [e] → sortFn options y x <= 0) ∧
  uniqueElements s' = ({[e]} ∪ uniqueElements s) ∖ {[x]} ∧
  (x ∉ uniqueElements s') ∧
  Z.of_nat (length (published s')) = m ∧
  ((∀ p, p ∈ published s → sortFn options p e <= 0) →
   x = e ∧ published s' = published s).
Proof.
  intros Hmax Hpos Hcmp Hreach Hn Hhas Hlong s' sorted x.
  assert (e ∉ uniqueElements s) as Hin by (by apply bool_decide_eq_false in Hhas).
  assert (overflows options sorted = true) as Hov.
  { unfold overflows. rewrite Hmax. by apply Z.ltb_lt. }
  destruct (added_overflow options e (published s) (uniqueElements s) Hov)
    as [Hsnoc Hidx].
  fold sorted in Hsnoc. fold x in Hsnoc, Hidx.
  pose proof (reachable_defined_elements options s Hreach) as Hdef.
  assert (∀ y, y ∈ published s ++ [e] → y ≠ VUndefined) as Hdefined.
  { intros y [Hy|Hy]%elem_of_app; apply loose_equals_null_defined.
    - by eapply (proj1 (Forall_forall _ _) Hdef).
    - by apply list_elem_of_singleton in Hy as ->. }
  assert (x ∈ published s ++ [e]) as Hx.
  { apply (js_sort_elem_of (sortFn options)). fold sorted. rewrite Hsnoc.
    apply elem_of_app. right. by apply list_elem_of_singleton. }
  assert (published s' = added_snapshot options e (published s)) as Hpub.
  { unfold s'. rewrite add_fresh by done. apply published_fresh. }
  assert (uniqueElements s' = ({[e]} ∪ uniqueElements s) ∖ {[x]}) as Hu.
  { unfold s'. rewrite add_fresh by done. simpl. rewrite Hidx.
    by rewrite bool_decide_eq_false_2 by by apply Hdefined. }
  rewrite Hpub.
  split; [done|]. split; [|split; [done|split; [|split]]].
  - intros y Hy.
    assert (sort_le (sortFn options) y x) as Hle.
    { apply last_sorted_max; [done|by apply js_sort_sorted|by apply js_sort_elem_of]. }
    unfold sort_le in Hle. by rewrite sort_compare_defined in Hle by by apply Hdefined.
  - rewrite Hu. set_solver.
  - pose proof (reachable_bounded options m s Hmax Hpos Hreach) as Hbound.
    pose proof (js_sort_length (sortFn options) (published s ++ [e])) as Hlen.
    fold sorted in Hlen, Hlong. rewrite Hsnoc in Hlen, Hlong.
    rewrite !length_app in Hlen. rewrite length_app in Hlong.
    simpl in Hlen, Hlong. lia.
  - intros Hlast.
    assert (sorted = published s ++ [e]) as Hid.
    { apply js_sort_id. apply StronglySorted_app_2.
      - intros p y Hp ->%list_elem_of_singleton. unfold sort_le.
        rewrite sort_compare_defined; [by apply Hlast| |].
        + apply Hdefined, elem_of_app. by left.
        + by apply loose_equals_null_defined.
      - by apply reachable_sorted.
      - repeat constructor. }
    rewrite Hid in Hsnoc. apply app_inj_tail in Hsnoc as [Hkept Hx']. done.
Qed.

Lemma add_overflow_evicts_last_witness :
  let options := Options by_rank (Some 3) in
  let s := run options [Add (VNum 3); Add (VNum 1); Add (VNum 2)] initial in
  (reachable options s ∧ eval (has (VNum 4)) s = false ∧
   3 < Z.of_nat (length (js_sort (sortFn options) (published s ++ [VNum 4])))) ∧
  js_sort (sortFn options) (published s ++ [VNum 4]) =
    published (exec (add options (VNum 4)) s)
      ++ [List.last (js_sort (sortFn options) (published s ++ [VNum 4])) VUndefined].
Proof.
  intros options s.
  assert (reachable options s) as Hreach by (by eexists).
  split; [split; [exact Hreach|split; [reflexivity|reflexivity]]|].
  exact (proj1 (add_overflow_evicts_last options 3 (VNum 4) s
                  eq_refl ltac:(lia) by_rank_consistent Hreach
                  eq_refl eq_refl eq_refl)).
Defined.

(** An element that sorts last is inserted and evicted at once. *)
Example add_evicts_the_added_element :
  let options := Options by_rank (Some 3) in
  let s := run options [Add (VNum 3); Add (VNum 1); Add (VNum 2)] initial in
  published (exec (add options (VNum 4)) s) = [VNum 1; VNum 2; VNum 3] ∧
  eval (has (VNum 4)) (exec (add options (VNum 4)) s) = false.
Proof. split; reflexivity. Qed.

(** C5: calling [add(e)] twice in succession publishes the same
    sequence as calling it once; when [e] is already in the index the
    call changes nothing and publishes nothing; an [add] of an element
    that is not in the index publishes exactly once, and the
    [null]/[undefined] path publishes nothing. *)
Theorem add_twice_same (options : SortedArraySetOptions) (e : value) (s : store) :
  consistent (sortFn options) →
  published (exec (add options e) (exec (add options e) s)) =
    published (exec (add options e) s) ∧
  (loose_equals_null e = false → eval (has e) s = true →
   exec (add options e) s = s) ∧
  (loose_equals_null e = false → eval (has e) s = false →
   publications (exec (add options e) s) = S (publications s)) ∧
  (loose_equals_null e = true →
   publications (exec (add options e) s) = publications s).
Proof.
  intros Hcmp. split; [|split; [|split]].
  - destruct (add_cases options e s) as [[Hn ->]|[(_ & _ & Hs)|(Hn & Hin & ->)]].
    + by rewrite add_nullish by done.
    + by rewrite !Hs.
    + set (s1 := Store _ _ _ _ _).
      destruct (add_cases options e s1) as [[? _]|[(_ & _ & ->)|(_ & Hin1 & ->)]];
        [congruence|done|].
      rewrite published_fresh. unfold s1 in Hin1 |- *. simpl in Hin1.
      rewrite published_fresh.
      destruct (overflows options (js_sort (sortFn options) (published s ++ [e])))
        eqn:Hov.
      2:{ destruct (added_no_overflow options e (published s) (uniqueElements s) Hov)
            as [_ Hidx]. rewrite Hidx in Hin1. set_solver. }
      destruct (added_overflow options e (published s) (uniqueElements s) Hov)
        as [Hsnoc Hidx].
      rewrite Hidx in Hin1.
      set (x := List.last _ _) in *.
      set (kept := added_snapshot options e (published s)) in *.
      assert (x = e) as Hxe.
      { destruct (bool_decide (x = VUndefined)); [set_solver|].
        destruct (decide (x = e)); [done|set_solver]. }
      rewrite Hxe in Hsnoc.
      assert (js_sort (sortFn options) (kept ++ [e]) = kept ++ [e]) as Hid.
      { apply js_sort_id. rewrite <-Hsnoc. by apply js_sort_sorted. }
      unfold added_snapshot at 1. rewrite Hid, <-Hsnoc, Hov, Hsnoc.
      apply removelast_last.
  - intros Hn Hhas. apply add_present; [done|].
    by apply bool_decide_eq_true in Hhas.
  - intros Hn Hhas. rewrite add_fresh; [done..|].
    by apply bool_decide_eq_false in Hhas.
  - intros Hn. by rewrite add_nullish.
Qed.

Lemma add_twice_same_witness :
  let options := Options by_rank (Some 2) in
  let s := run options [Add (VNum 1); Add (VNum 2)] initial in
  consistent (sortFn options) ∧
  published (exec (add options (VNum 5)) (exec (add options (VNum 5)) s)) =
    published (exec (add options (VNum 5)) s).
Proof.
  intros options s. split; [exact by_rank_consistent|].
  exact (proj1 (add_twice_same options (VNum 5) s by_rank_consistent)).
Defined.

(** C7: [add(null)] and [add(undefined)] leave the index, the arrays
    and the subject as they are, publish nothing, log one warning and
    return normally. *)
Theorem add_null_is_noop (options : SortedArraySetOptions) (e : value) (s : store) :
  e = VNull ∨ e = VUndefined →
  let s' := exec (add options e) s in
  uniqueElements s' = uniqueElements s ∧
  heap s' = heap s ∧
  data_value s' = data_value s ∧
  data_past s' = data_past s ∧
  published s' = published s ∧
  emissions s' = emissions s ∧
  publications s' = publications s ∧
  console s' = console s ++ ["Cannot add null or undefined to SortedArraySet"] ∧
  invoke (createSortedArraySet options) "add" (ElementArgument e) s = ReturnedVoid s'.
Proof.
  intros He s'.
  assert (s' = with_console
                 (console s ++ ["Cannot add null or undefined to SortedArraySet"]) s)
    as Hs'.
  { apply add_nullish. by destruct He as [-> | ->]. }
  rewrite Hs'. repeat split; try reflexivity.
  simpl. by rewrite <-Hs'.
Qed.

Lemma add_null_is_noop_witness :
  let options := Options by_rank (Some 3) in
  let s := run options [Add (VNum 3); Add (VNum 1)] initial in
  (VNull = VNull ∨ VNull = VUndefined) ∧
  published (exec (add options VNull) s) = published s ∧
  uniqueElements (exec (add options VNull) s) = uniqueElements s.
Proof.
  intros options s.
  pose proof (add_null_is_noop options VNull s (or_introl eq_refl))
    as (Hu & _ & _ & _ & Hp & _).
  split; [by left|]. split; [exact Hp|exact Hu].
Defined.

(** ** [remove] *)


(** C6: [remove(NaN)] after [add(NaN)] deletes [NaN] from the index but
    [e !== NaN] holds of every [e], [NaN] included, so the filter drops
    nothing and the published sequence still contains [NaN]. *)
Theorem remove_NaN_stays_published :
  let options := Options numeric None in
  let s := exec (remove options VNaN) (run options [Add VNaN] initial) in
  eval (has VNaN) s = false ∧
  published s = [VNaN] ∧
  VNaN ∈ published s.
Proof. repeat split. apply list_elem_of_here. Qed.

(** ** The index and the sequence *)



(** C9: after [add(NaN)] and [remove(NaN)] the published sequence has
    one element and the index none; a further [add(NaN)] publishes
    [NaN] twice. *)
Theorem remove_NaN_breaks_sync :
  let options := Options numeric None in
  let s := run options [Add VNaN; Remove VNaN] initial in
  length (published s) = 1%nat ∧
  size (uniqueElements s) = 0%nat ∧
  VNaN ∈ published s ∧ (VNaN ∉ uniqueElements s) ∧
  published (run options [Add VNaN; Remove VNaN; Add VNaN] initial) = [VNaN; VNaN].
Proof.
  repeat split.
  - apply list_elem_of_here.
  - apply not_elem_of_empty.
Qed.

(** ** [getTopN] *)

Lemma js_slice0_nonnegative (n : Z) (l : list value) :
  0 <= n → js_slice0 n l = first_min n l.
Proof.
  intros Hn. unfold js_slice0, first_min.
  by rewrite (proj2 (Z.ltb_ge n 0) Hn).
Qed.

(** A negative [n] drops the last [-n] elements instead. *)
Lemma js_slice0_negative (n : Z) (l : list value) :
  n < 0 → js_slice0 n l = take (length l - Z.to_nat (- n)) l.
Proof.
  intros Hn. unfold js_slice0.
  rewrite (proj2 (Z.ltb_lt n 0) Hn). f_equal. lia.
Qed.

Lemma emissions_last (s : store) : last (emissions s) = Some (published s).
Proof.
  unfold emissions, snapshots. simpl. by rewrite last_snoc.
Qed.

(** C8, as stated, fails for a negative [n]: on the snapshot
    [[1; 2; 3]], [getTopN(-1)] emits [[1; 2]], which is neither the
    first [min(-1, 3)] elements nor of that length. *)
Lemma getTopN_negative_counterexample :
  let s := run (Options by_rank None)
             [Add (VNum 1); Add (VNum 2); Add (VNum 3)] initial in
  published s = [VNum 1; VNum 2; VNum 3] ∧
  last (getTopN (-1) s) = Some [VNum 1; VNum 2] ∧
  getTopN (-1) s ≠ map (first_min (-1)) (emissions s) ∧
  Z.of_nat (length (js_slice0 (-1) (published s))) ≠
    Z.min (-1) (Z.of_nat (length (published s))).
Proof.
  split; [reflexivity|]. split; [reflexivity|]. split.
  - vm_compute. discriminate.
  - vm_compute. discriminate.
Qed.

(** C8, amended: for [n] at least zero, [getTopN(n)] carries one
    sequence per snapshot of the parent, each the first
    [min(n, length)] elements of its snapshot, the latest one that of
    the current sequence; in a reachable store with a consistent
    [sortFn] nothing it leaves out sorts before what it keeps; and the
    call leaves the store as it is. *)
Theorem getTopN_first_min (options : SortedArraySetOptions) (n : Z) (s : store) :
  0 <= n →
  getTopN n s = map (first_min n) (emissions s) ∧
  length (getTopN n s) = length (emissions s) ∧
  (∀ i l, emissions s !! i = Some l → getTopN n s !! i = Some (first_min n l)) ∧
  last (getTopN n s) = Some (first_min n (published s)) ∧
  (consistent (sortFn options) → reachable options s →
   ∀ p q, p ∈ first_min n (published s) →
          q ∈ drop (length (first_min n (published s))) (published s) →
          sortFn options p q <= 0) ∧
  invoke (createSortedArraySet options) "getTopN" (NumberArgument n) s =
    ReturnedStream (getTopN n s) s.
Proof.
  intros Hn.
  assert (getTopN n s = map (first_min n) (emissions s)) as Heq.
  { unfold getTopN. apply map_ext. intros l. by apply js_slice0_nonnegative. }
  split; [done|]. split; [by rewrite Heq, length_map|].
  split; [|split; [|split; [|done]]].
  - intros i l Hl. rewrite Heq.
    change (map (first_min n) (emissions s)) with (first_min n <$> emissions s).
    by rewrite list_lookup_fmap, Hl.
  - rewrite Heq.
    change (map (first_min n) (emissions s)) with (first_min n <$> emissions s).
    by rewrite fmap_last, emissions_last.
  - intros Hcmp Hreach p q Hp Hq.
    pose proof (reachable_ascending options s Hcmp Hreach) as Hasc.
    unfold ascending, first_min in *.
    rewrite length_take in Hq.
    set (k := Z.to_nat _) in *.
    assert (drop (k `min` length (published s)) (published s) = drop k (published s))
      as Hdrop.
    { destruct (Nat.min_spec k (length (published s))) as [[_ ->]|[Hle ->]]; [done|].
      by rewrite !drop_ge by lia. }
    rewrite Hdrop in Hq.
    rewrite <-(take_drop k (published s)) in Hasc.
    by eapply (StronglySorted_app_1_elem_of _ _ _ _ _ Hasc).
Qed.

Lemma getTopN_first_min_witness :
  let options := Options by_rank (Some 3) in
  let s := run options
             [Add (VNum 3); Add (VNum 1); Add (VNum 2); Add (VNum 4); Remove (VNum 2)]
             initial in
  0 <= 2 ∧
  last (getTopN 2 s) = Some [VNum 1; VNum 3] ∧
  getTopN 2 s = map (first_min 2) (emissions s).
Proof.
  intros options s. split; [lia|]. split; [reflexivity|].
  exact (proj1 (getTopN_first_min options 2 s ltac:(lia))).
Defined.

(** ** Published snapshots are never written again *)

Section frame.
Context (options : SortedArraySetOptions).

(** A call only ever adds arrays to the heap: the arrays it sorts and
    pops are the ones it has just allocated. *)
Lemma perform_heap_grows (c : call) (s : store) :
  ∃ new, heap (exec (perform options c) s) = heap s ++ new.
Proof.
  destruct c as [e|e|]; cbn [perform].
  - destruct (add_cases options e s) as [[_ ->]|[(_ & _ & ->)|(_ & _ & ->)]].
    + exists []. simpl. by rewrite app_nil_r.
    + exists []. by rewrite app_nil_r.
    + by eexists.
  - rewrite remove_effect. by eexists.
  - rewrite clear_effect. by eexists.
Qed.

Lemma run_heap_grows (cs : list call) (s : store) :
  ∃ new, heap (run options cs s) = heap s ++ new.
Proof.
  induction cs as [|c cs [new IH]] using rev_ind.
  - exists []. simpl. by rewrite app_nil_r.
  - rewrite run_snoc.
    destruct (perform_heap_grows c (run options cs s)) as [new' ->].
    exists (new ++ new'). by rewrite IH, app_assoc.
Qed.

(** A call publishes nothing or publishes the array it has allocated. *)
Lemma perform_snapshots (c : call) (s : store) :
  let s' := exec (perform options c) s in
  snapshots s' = snapshots s ∨
  (snapshots s' = length (heap s) :: snapshots s ∧
   (length (heap s) < length (heap s'))%nat).
Proof.
  intros s'. subst s'. destruct c as [e|e|]; cbn [perform].
  - destruct (add_cases options e s) as [[_ ->]|[(_ & _ & ->)|(_ & _ & ->)]];
      [by left..|].
    right. unfold snapshots. simpl. rewrite length_app. simpl. split; [done|lia].
  - rewrite remove_effect. right. unfold snapshots. simpl.
    rewrite length_app. simpl. split; [done|lia].
  - rewrite clear_effect. right. unfold snapshots. simpl.
    rewrite length_app. simpl. split; [done|lia].
Qed.

Lemma perform_snapshots_allocated (c : call) (s : store) :
  snapshots_allocated s → snapshots_allocated (exec (perform options c) s).
Proof.
  intros Hs r Hr.
  destruct (perform_heap_grows c s) as [new Hheap].
  destruct (perform_snapshots c s) as [Hsame|[Hnew Hlt]].
  - rewrite Hsame in Hr. rewrite Hheap, length_app. apply Hs in Hr. lia.
  - rewrite Hnew in Hr. apply elem_of_cons in Hr as [->|Hr]; [done|].
    rewrite Hheap, length_app. apply Hs in Hr. lia.
Qed.

Lemma reachable_snapshots_allocated (s : store) :
  reachable options s → snapshots_allocated s.
Proof.
  intros [cs ->].
  apply (run_preserves options snapshots_allocated (λ _, True)).
  - intros r Hr. apply list_elem_of_singleton in Hr as ->. simpl. lia.
  - intros ? ? _. apply perform_snapshots_allocated.
  - by apply Forall_forall.
Qed.

End frame.

(** C10: the array behind a snapshot that [data$] has delivered keeps
    its contents under every later sequence of [add], [remove] and
    [clear] calls, and a call that publishes publishes an array that no
    earlier snapshot refers to. *)
Theorem published_snapshots_immutable (options : SortedArraySetOptions)
    (s : store) (cs : list call) (r : loc) :
  reachable options s →
  r ∈ snapshots s →
  deref (run options cs s) r = deref s r ∧
  (∀ c, let s' := exec (perform options c) s in
        snapshots s' = snapshots s ∨
        (snapshots s' = data_value s' :: snapshots s ∧ data_value s' ∉ snapshots s)).
Proof.
  intros Hreach Hr.
  pose proof (reachable_snapshots_allocated options s Hreach) as Halloc.
  split.
  - destruct (run_heap_grows options cs s) as [new Hheap].
    unfold deref. rewrite Hheap. by rewrite lookup_app_l by by apply Halloc.
  - intros c s'.
    destruct (perform_snapshots options c s) as [Hsame|[Hnew _]]; [by left|].
    right. fold s' in Hnew.
    assert (data_value s' = length (heap s)) as -> by (by injection Hnew).
    split; [done|]. intros Hin. apply Halloc in Hin. lia.
Qed.

Lemma published_snapshots_immutable_witness :
  let options := Options by_rank (Some 3) in
  let s := run options [Add (VNum 3); Add (VNum 1)] initial in
  (reachable options s ∧ 1%nat ∈ snapshots s) ∧
  deref (run options [Add (VNum 0); Remove (VNum 3); Clear] s) 1%nat = [VNum 3].
Proof.
  intros options s.
  assert (reachable options s) as Hreach by (by eexists).
  assert (1%nat ∈ snapshots s) as Hin.
  { apply list_elem_of_further, list_elem_of_here. }
  split; [done|].
  exact (proj1 (published_snapshots_immutable options s
                  [Add (VNum 0); Remove (VNum 3); Clear] 1%nat Hreach Hin)).
Defined.

(** ** [clear] *)

(** The closure [clear] empties the index and publishes an empty
    sequence. *)
Lemma clear_empties (s : store) :
  let s' := exec clear s in
  uniqueElements s' = ∅ ∧
  published s' = [] ∧
  (∀ e, eval (has e) s' = false) ∧
  publications s' = S (publications s).
Proof.
  intros s'. unfold s'. rewrite clear_effect, published_fresh.
  split; [done|]. split; [done|]. split; [|done].
  intros e. unfold eval, has, set_has. simpl.
  by apply bool_decide_eq_false_2, not_elem_of_empty.
Qed.

(** C1: the object the factory returns has no [clear] property, so
    [handle.clear()] throws a [TypeError] in every store state: the
    closure is defined and documented but [Object.assign] is given
    [add], [remove], [has] and [getTopN] only. *)
Theorem clear_not_exposed (options : SortedArraySetOptions) (s : store) :
  get_member "clear" (createSortedArraySet options) = None ∧
  invoke (createSortedArraySet options) "clear" NoArgument s = ThrewTypeError.
Proof. split; reflexivity. Qed.

(** * Further properties of the store *)

(** ** The index and the sequence in every reachable state *)

Lemma list_filter_decide (f : value → bool) (l : list value) :
  List.filter f l = filter (λ x, f x = true) l.
Proof.
  induction l as [|x l IH]; simpl; [done|].
  destruct (f x) eqn:Hx.
  - by rewrite filter_cons_True, IH.
  - rewrite filter_cons_False, IH; [done|]. by rewrite Hx.
Qed.

Lemma strict_equals_false (y e : value) :
  strict_equals y e = false ↔ y ≠ e ∨ e = VNaN.
Proof.
  destruct (decide (e = VNaN)) as [->|He].
  - rewrite strict_equals_NaN. naive_solver.
  - rewrite strict_equals_decide, bool_decide_eq_false by done. naive_solver.
Qed.

Lemma NoDup_removed_numbers (options : SortedArraySetOptions) (e : value)
    (l : list value) :
  NoDup (filter (λ v, v ≠ VNaN) l) →
  NoDup (filter (λ v, v ≠ VNaN) (removed_snapshot options e l)).
Proof.
  intros Hl. unfold removed_snapshot.
  rewrite js_sort_perm, list_filter_decide, list_filter_filter.
  rewrite (list_filter_iff _ (λ a, negb (strict_equals a e) = true ∧ a ≠ VNaN))
    by naive_solver.
  rewrite <-list_filter_filter. by apply NoDup_filter.
Qed.

Lemma perform_index_agrees (options : SortedArraySetOptions) (c : call) (s : store) :
  defined_elements s → index_agrees s →
  index_agrees (exec (perform options c) s).
Proof.
  intros Hdef (Hin & Hout & Hnd). destruct c as [e|e|]; cbn [perform].
  - destruct (add_cases options e s) as [[_ ->]|[(_ & _ & ->)|(Hn & Hfresh & ->)]];
      [done..|].
    unfold index_agrees. rewrite published_fresh. simpl.
    assert (∀ y, y ∈ js_sort (sortFn options) (published s ++ [e]) ↔
                 y ∈ published s ∨ y = e) as Hmem.
    { intros y. by rewrite js_sort_elem_of, elem_of_app, list_elem_of_singleton. }
    assert (NoDup (filter (λ v, v ≠ VNaN)
                     (js_sort (sortFn options) (published s ++ [e])))) as Hsnd.
    { rewrite js_sort_perm, filter_app. apply NoDup_app. split; [done|]. split.
      - intros y [Hy Hyin]%list_elem_of_filter [_ Hye]%list_elem_of_filter.
        apply list_elem_of_singleton in Hye as ->. by apply Hfresh, Hout.
      - destruct (decide (e = VNaN)) as [->|He].
        + rewrite filter_cons_False by naive_solver. constructor.
        + rewrite filter_cons_True by done. apply NoDup_singleton. }
    destruct (overflows options (js_sort (sortFn options) (published s ++ [e])))
      eqn:Hov.
    + destruct (added_overflow options e (published s) (uniqueElements s) Hov)
        as [Hsnoc ->].
      set (x := List.last _ _) in *.
      set (kept := added_snapshot options e (published s)) in *.
      rewrite Hsnoc in Hsnd, Hmem.
      assert (x ≠ VUndefined) as Hxdef.
      { assert (x ∈ published s ∨ x = e) as [Hxin| ->].
        { apply Hmem, elem_of_app. right. by apply list_elem_of_singleton. }
        - apply loose_equals_null_defined.
          by eapply (proj1 (Forall_forall _ _) Hdef).
        - by apply loose_equals_null_defined. }
      rewrite bool_decide_eq_false_2 by done.
      rewrite filter_app in Hsnd. apply NoDup_app in Hsnd as (Hkept & Hx & _).
      split; [|split; [|done]].
      * intros y Hy.
        assert (y ∈ kept ++ [x]) as [?|Hyx]%elem_of_app; [|done|].
        { apply Hmem. specialize (Hin y). set_solver. }
        apply list_elem_of_singleton in Hyx. set_solver.
      * intros y Hy Hynan.
        assert (y ≠ x) as Hyx.
        { intros ->. eapply Hx; apply list_elem_of_filter; split; try done.
          by apply list_elem_of_singleton. }
        assert (y ∈ published s ∨ y = e) as Hcase.
        { apply Hmem, elem_of_app. by left. }
        specialize (Hout y). set_solver.
    + destruct (added_no_overflow options e (published s) (uniqueElements s) Hov)
        as [-> ->].
      split; [|split; [|done]].
      * intros y Hy. apply Hmem. specialize (Hin y). set_solver.
      * intros y Hy Hynan. apply Hmem in Hy. specialize (Hout y). set_solver.
  - rewrite remove_effect. unfold index_agrees. rewrite published_fresh. simpl.
    split; [|split; [|by apply NoDup_removed_numbers]].
    + intros y [Hy Hye]%elem_of_difference.
      apply elem_of_removed_snapshot. split; [by apply Hin|].
      apply strict_equals_false. left. set_solver.
    + intros y [Hy Hye]%elem_of_removed_snapshot Hynan.
      apply elem_of_difference. split; [by apply Hout|].
      apply strict_equals_false in Hye as [Hye| ->]; set_solver.
  - rewrite clear_effect. unfold index_agrees. rewrite published_fresh. simpl.
    split; [set_solver|]. split; [by intros y Hy; inv Hy|]. rewrite filter_nil. constructor.
Qed.

Lemma reachable_index_agrees (options : SortedArraySetOptions) (s : store) :
  reachable options s → index_agrees s.
Proof.
  intros [cs ->].
  cut (defined_elements (run options cs initial) ∧ index_agrees (run options cs initial)).
  { by intros [_ ?]. }
  apply (run_preserves options (λ s, defined_elements s ∧ index_agrees s) (λ _, True)).
  - split; [constructor|].
    split; [set_solver|]. split; [by intros y Hy; inv Hy|]. constructor.
  - intros c s _ [Hdef Hagree]. split.
    + by apply perform_defined_elements.
    + by apply perform_index_agrees.
  - by apply Forall_forall.
Qed.


(** ** Sequences of arbitrary calls *)

(** X2: with a consistent comparator the published sequence is sorted
    ascending per [sortFn] after each call of any sequence of [add],
    [remove] and [clear] calls. *)
Theorem call_sequence_sorted (options : SortedArraySetOptions)
    (cs : list call) (k : nat) :
  consistent (sortFn options) →
  ascending options (published (run options (take k cs) initial)).
Proof.
  intros Hcmp. apply reachable_ascending; [done|]. by eexists.
Qed.

Lemma call_sequence_sorted_witness :
  consistent (sortFn (Options by_rank None)) ∧
  ascending (Options by_rank None)
    (published (run (Options by_rank None)
                  (take 4 [Add (VNum 5); Add (VNum 2); Remove (VNum 5); Add (VNum 1)])
                  initial)).
Proof.
  split; [exact by_rank_consistent|].
  exact (call_sequence_sorted (Options by_rank None)
           [Add (VNum 5); Add (VNum 2); Remove (VNum 5); Add (VNum 1)] 4
           by_rank_consistent).
Defined.

(** X3: with [maxSize = m], [m] not negative, the published sequence is
    never longer than [m], whatever calls are made and whatever
    [sortFn] is. *)
Theorem call_sequence_bounded (options : SortedArraySetOptions) (m : Z)
    (cs : list call) (k : nat) :
  maxSize options = Some m → 0 <= m →
  Z.of_nat (length (published (run options (take k cs) initial))) <= m.
Proof.
  intros Hmax Hpos. apply (reachable_bounded options); [done..|]. by eexists.
Qed.

Lemma call_sequence_bounded_witness :
  (maxSize (Options numeric (Some 2)) = Some 2 ∧ 0 <= 2) ∧
  Z.of_nat (length (published (run (Options numeric (Some 2))
              (take 4 [Add (VNum 5); Add VNaN; Add (VNum 1); Remove (VNum 7)])
              initial))) <= 2.
Proof.
  split; [split; [reflexivity|lia]|].
  exact (call_sequence_bounded (Options numeric (Some 2)) 2
           [Add (VNum 5); Add VNaN; Add (VNum 1); Remove (VNum 7)] 4
           eq_refl ltac:(lia)).
Defined.

Lemma nonpositive_bound_empty (options : SortedArraySetOptions) (m : Z)
    (cs : list call) :
  maxSize options = Some m → m <= 0 →
  let s := run options cs initial in
  published s = [] ∧ uniqueElements s = ∅ ∧
  publications s = length (List.filter (λ c, negb (warns c)) cs).
Proof.
  intros Hmax Hneg.
  induction cs as [|c cs (Hp & Hu & Hn)] using rev_ind; [done|].
  cbn zeta in *.
  rewrite run_snoc, List.filter_app, length_app.
  set (s := run options cs initial) in *.
  destruct c as [e|e|]; cbn [perform warns List.filter].
  - destruct (add_cases options e s) as [[He ->]|[(_ & Hin & _)|(He & _ & ->)]].
    + rewrite He. simpl. split; [exact Hp|]. split; [exact Hu|].
      unfold publications in *. simpl. lia.
    + rewrite Hu in Hin. by apply not_elem_of_empty in Hin.
    + rewrite He, published_fresh. unfold publications, snapshots in *. simpl.
      rewrite Hp, Hu. unfold added_snapshot, added_index, overflows.
      rewrite Hmax. simpl.
      assert (e ≠ VUndefined) as Hdef by (by apply loose_equals_null_defined).
      rewrite strict_equals_undefined, (bool_decide_eq_false_2 _ Hdef).
      rewrite (proj2 (Z.ltb_lt m (Z.of_nat 1))) by lia. simpl.
      split; [done|]. split; [set_solver|lia].
  - rewrite remove_effect, published_fresh. unfold publications, snapshots in *.
    simpl. rewrite Hp, Hu. split; [done|]. split; [set_solver|lia].
  - rewrite clear_effect, published_fresh. unfold publications, snapshots in *.
    simpl. split; [done|]. split; [done|lia].
Qed.

(** X4: with [maxSize] zero or negative the store retains nothing: after
    each call the published sequence and the index are empty, yet every
    call other than [add(null)] and [add(undefined)] has published. *)
Theorem nonpositive_bound_retains_nothing (options : SortedArraySetOptions) (m : Z)
    (cs : list call) (k : nat) :
  maxSize options = Some m → m <= 0 →
  let s := run options (take k cs) initial in
  published s = [] ∧
  uniqueElements s = ∅ ∧
  (∀ e, eval (has e) s = false) ∧
  publications s = length (List.filter (λ c, negb (warns c)) (take k cs)).
Proof.
  intros Hmax Hneg s.
  destruct (nonpositive_bound_empty options m (take k cs) Hmax Hneg) as (Hp & Hu & Hn).
  split; [done|]. split; [done|]. split; [|done].
  intros e. apply (bool_decide_eq_false_2 (e ∈ uniqueElements s)).
  unfold s. rewrite Hu. apply not_elem_of_empty.
Qed.

Lemma nonpositive_bound_retains_nothing_witness :
  (maxSize (Options numeric (Some 0)) = Some 0 ∧ 0 <= 0) ∧
  published (run (Options numeric (Some 0))
               (take 2 [Add (VNum 5); Add (VNum 1)]) initial) = [] ∧
  publications (run (Options numeric (Some 0))
                  (take 2 [Add (VNum 5); Add (VNum 1)]) initial) = 2%nat.
Proof.
  split; [split; [reflexivity|lia]|].
  pose proof (nonpositive_bound_retains_nothing (Options numeric (Some 0)) 0
                [Add (VNum 5); Add (VNum 1)] 2 eq_refl ltac:(lia))
    as (Hp & _ & _ & Hn).
  split; [exact Hp|exact Hn].
Defined.

(** ** Where [add] puts the element, what [remove] takes away *)

Section placement.
Context (comparefn : value → value → Z) (Hcmp : consistent comparefn).

Lemma sort_insert_front (p : value) (l : list value) :
  Forall (sort_le comparefn p) l → sort_insert comparefn p l = p :: l.
Proof.
  intros [|y l' Hy _]; simpl; [done|].
  unfold sort_le in Hy. by rewrite (proj2 (Z.leb_le _ _) Hy).
Qed.

(** Sorting a sorted array with one element appended puts that element
    after everything that does not sort after it and leaves the rest
    in place. *)
Lemma js_sort_append (l : list value) (e : value) :
  StronglySorted (sort_le comparefn) l →
  ∃ l1 l2, l = l1 ++ l2 ∧
           js_sort comparefn (l ++ [e]) = l1 ++ e :: l2 ∧
           (∀ y, y ∈ l1 → sort_le comparefn y e) ∧
           (∀ y, y ∈ l2 → ¬ sort_le comparefn y e).
Proof.
  induction 1 as [|p l Hl (l1 & l2 & -> & Hsort & Hl1 & Hl2) Hp].
  { exists [], []. split; [done|]. split; [done|].
    split; by intros y Hy; inv Hy. }
  change (js_sort comparefn ((p :: l1 ++ l2) ++ [e]))
    with (sort_insert comparefn p (js_sort comparefn ((l1 ++ l2) ++ [e]))).
  rewrite Hsort. destruct l1 as [|y l1]; cbn [app sort_insert].
  - destruct (Z.leb_spec (sort_compare comparefn p e) 0) as [Hle|Hgt].
    + exists [p], l2. split; [done|]. split; [done|]. split; [|done].
      intros y ->%list_elem_of_singleton. done.
    + exists [], (p :: l2). rewrite sort_insert_front by done.
      split; [done|]. split; [done|]. split; [by intros y Hy; inv Hy|].
      intros y [->|Hy]%elem_of_cons; [|by apply Hl2].
      unfold sort_le. lia.
  - exists (p :: y :: l1), l2.
    assert (sort_le comparefn p y) as Hpy by (by inv Hp).
    unfold sort_le in Hpy. rewrite (proj2 (Z.leb_le _ _) Hpy).
    split; [done|]. split; [done|]. split; [|done].
    intros z [->|Hz]%elem_of_cons; [|by apply Hl1].
    eapply sort_le_trans; [done|exact Hpy|]. apply Hl1. by left.
Qed.

Lemma filter_sorted (f : value → bool) (l : list value) :
  StronglySorted (sort_le comparefn) l →
  StronglySorted (sort_le comparefn) (List.filter f l).
Proof.
  induction 1 as [|x l Hl IH Hx]; simpl; [constructor|].
  destruct (f x); [|done]. constructor; [done|].
  apply Forall_forall. intros y Hy%list_elem_of_In%filter_In.
  destruct Hy as [Hy _]. apply list_elem_of_In in Hy.
  by eapply (proj1 (Forall_forall _ _) Hx).
Qed.

End placement.

Lemma filter_all (f : value → bool) (l : list value) :
  (∀ y, y ∈ l → f y = true) → List.filter f l = l.
Proof.
  intros Hall. apply forallb_filter_id, forallb_forall.
  intros y Hy. by apply Hall, list_elem_of_In.
Qed.

Lemma reachable_perform (options : SortedArraySetOptions) (c : call) (s : store) :
  reachable options s → reachable options (exec (perform options c) s).
Proof. intros [cs ->]. exists (cs ++ [c]). by rewrite run_snoc. Qed.

(** In a reachable store the sort in [remove] finds its input sorted. *)
Lemma remove_published (options : SortedArraySetOptions) (e : value) (s : store) :
  consistent (sortFn options) → reachable options s →
  published (exec (remove options e) s) =
    List.filter (λ y, negb (strict_equals y e)) (published s).
Proof.
  intros Hcmp Hreach. rewrite remove_effect, published_fresh.
  unfold removed_snapshot. apply js_sort_id, filter_sorted.
  by apply reachable_sorted.
Qed.

(** An element that [has] does not report, or [NaN], is strictly equal
    to nothing published. *)
Lemma absent_matches_nothing (options : SortedArraySetOptions) (e : value) (s : store) :
  reachable options s → e ∉ uniqueElements s ∨ e = VNaN →
  ∀ y, y ∈ published s → negb (strict_equals y e) = true.
Proof.
  intros Hreach He y Hy. apply negb_true_iff, strict_equals_false.
  destruct (decide (e = VNaN)) as [?|Hnan]; [by right|]. left.
  destruct He as [He|?]; [|done]. intros ->.
  by apply He, (reachable_index_agrees options s Hreach).
Qed.

(** X5: in a reachable store with a consistent comparator, [add] of a
    new element that does not overflow [maxSize] splits the published
    sequence in two and puts the element between: everything before it
    sorts before it or ties with it, everything after it sorts strictly
    after it; and [has] reports the element afterwards. *)
Theorem add_inserts_in_place (options : SortedArraySetOptions) (e : value) (s : store) :
  consistent (sortFn options) → reachable options s →
  loose_equals_null e = false → eval (has e) s = false →
  overflows options (published s ++ [e]) = false →
  ∃ l1 l2,
    published s = l1 ++ l2 ∧
    published (exec (add options e) s) = l1 ++ e :: l2 ∧
    (∀ y, y ∈ l1 → sortFn options y e <= 0) ∧
    (∀ y, y ∈ l2 → 0 < sortFn options y e) ∧
    eval (has e) (exec (add options e) s) = true.
Proof.
  intros Hcmp Hreach Hn Hhas Hov.
  assert (e ∉ uniqueElements s) as Hin by (by apply bool_decide_eq_false in Hhas).
  assert (overflows options (js_sort (sortFn options) (published s ++ [e])) = false)
    as Hov'.
  { unfold overflows in *. by rewrite js_sort_length. }
  destruct (added_no_overflow options e (published s) (uniqueElements s) Hov')
    as [Hsnap Hidx].
  destruct (js_sort_append (sortFn options) Hcmp (published s) e
              (reachable_sorted options s Hcmp Hreach))
    as (l1 & l2 & Hsplit & Hsort & Hl1 & Hl2).
  pose proof (reachable_defined_elements options s Hreach) as Hdef.
  assert (∀ y, y ∈ published s → sort_compare (sortFn options) y e = sortFn options y e)
    as Hsame.
  { intros y Hy. apply sort_compare_defined; apply loose_equals_null_defined; [|done].
    by eapply (proj1 (Forall_forall _ _) Hdef). }
  exists l1, l2. rewrite add_fresh by done. rewrite published_fresh, Hsnap, Hsort.
  split; [done|]. split; [done|]. split; [|split].
  - intros y Hy. rewrite <-Hsame; [by apply Hl1|].
    rewrite Hsplit. apply elem_of_app. by left.
  - intros y Hy. rewrite <-Hsame.
    + specialize (Hl2 y Hy). unfold sort_le in Hl2. lia.
    + rewrite Hsplit. apply elem_of_app. by right.
  - apply (bool_decide_eq_true_2 (e ∈ added_index options e (published s) (uniqueElements s))).
    rewrite Hidx. set_solver.
Qed.

Lemma add_inserts_in_place_witness :
  let options := Options by_rank (Some 3) in
  let s := run options [Add (VNum 1); Add (VNum 3)] initial in
  (consistent (sortFn options) ∧ reachable options s ∧
   eval (has (VNum 2)) s = false ∧
   overflows options (published s ++ [VNum 2]) = false) ∧
  ∃ l1 l2, published s = l1 ++ l2 ∧
           published (exec (add options (VNum 2)) s) = l1 ++ VNum 2 :: l2.
Proof.
  intros options s.
  assert (reachable options s) as Hreach by (by eexists).
  split; [split; [exact by_rank_consistent|split; [exact Hreach|split; reflexivity]]|].
  destruct (add_inserts_in_place options (VNum 2) s by_rank_consistent Hreach
              eq_refl eq_refl eq_refl) as (l1 & l2 & H1 & H2 & _).
  by exists l1, l2.
Defined.

(** X6: in a reachable store with a consistent comparator, [remove]
    publishes the old sequence without the entries that are [===] to the
    element, the others in their order; for an element that [has] does
    not report, and for [NaN], that is the whole old sequence, published
    anew in an array of its own. *)
Theorem remove_filters_in_order (options : SortedArraySetOptions) (e : value) (s : store) :
  consistent (sortFn options) → reachable options s →
  let s' := exec (remove options e) s in
  published s' = List.filter (λ y, negb (strict_equals y e)) (published s) ∧
  (eval (has e) s = false ∨ e = VNaN → published s' = published s) ∧
  publications s' = S (publications s) ∧
  data_value s' ∉ snapshots s.
Proof.
  intros Hcmp Hreach s'.
  split; [by apply remove_published|]. split; [|split].
  - intros He. unfold s'. rewrite remove_published by done.
    apply filter_all, (absent_matches_nothing options); [done|].
    destruct He as [He|?]; [left|by right]. by apply bool_decide_eq_false in He.
  - unfold s'. by rewrite remove_effect.
  - unfold s'. rewrite remove_effect. simpl. intros Hin.
    apply (reachable_snapshots_allocated options s Hreach) in Hin. lia.
Qed.

Lemma remove_filters_in_order_witness :
  let options := Options by_rank None in
  let s := run options [Add (VNum 3); Add (VNum 1); Add (VNum 2)] initial in
  (consistent (sortFn options) ∧ reachable options s) ∧
  published (exec (remove options (VNum 2)) s) = [VNum 1; VNum 3] ∧
  published (exec (remove options (VNum 2)) s) =
    List.filter (λ y, negb (strict_equals y (VNum 2))) (published s).
Proof.
  intros options s.
  assert (reachable options s) as Hreach by (by eexists).
  split; [split; [exact by_rank_consistent|exact Hreach]|].
  split; [reflexivity|].
  exact (proj1 (remove_filters_in_order options (VNum 2) s by_rank_consistent Hreach)).
Defined.

(** X7: in a reachable store with a consistent comparator, [add] of a
    new element other than [NaN] that does not overflow [maxSize],
    followed by [remove] of it, gives back the published sequence and
    the index, after two publications. *)
Theorem add_then_remove_restores (options : SortedArraySetOptions) (e : value)
    (s : store) :
  consistent (sortFn options) → reachable options s →
  loose_equals_null e = false → e ≠ VNaN → eval (has e) s = false →
  overflows options (published s ++ [e]) = false →
  let s' := exec (remove options e) (exec (add options e) s) in
  published s' = published s ∧
  uniqueElements s' = uniqueElements s ∧
  eval (has e) s' = false ∧
  publications s' = S (S (publications s)).
Proof.
  intros Hcmp Hreach Hn Hnan Hhas Hov s'.
  assert (e ∉ uniqueElements s) as Hin by (by apply bool_decide_eq_false in Hhas).
  assert (overflows options (js_sort (sortFn options) (published s ++ [e])) = false)
    as Hov'.
  { unfold overflows in *. by rewrite js_sort_length. }
  destruct (added_no_overflow options e (published s) (uniqueElements s) Hov')
    as [Hsnap Hidx].
  destruct (js_sort_append (sortFn options) Hcmp (published s) e
              (reachable_sorted options s Hcmp Hreach))
    as (l1 & l2 & Hsplit & Hsort & _ & _).
  assert (uniqueElements s' = uniqueElements s) as Hu.
  { unfold s'. rewrite remove_effect, add_fresh by done. simpl.
    rewrite Hidx. set_solver. }
  split; [|split; [done|split]].
  - unfold s'.
    rewrite remove_published by (try apply (reachable_perform options (Add e)); done).
    rewrite add_fresh by done. rewrite published_fresh, Hsnap, Hsort.
    pose proof (absent_matches_nothing options e s Hreach (or_introl Hin)) as Hkeep.
    rewrite Hsplit in Hkeep.
    rewrite List.filter_app. simpl.
    rewrite strict_equals_decide, bool_decide_eq_true_2 by done. simpl.
    rewrite !filter_all; [done| |].
    + intros y Hy. apply Hkeep, elem_of_app. by right.
    + intros y Hy. apply Hkeep, elem_of_app. by left.
  - apply (bool_decide_eq_false_2 (e ∈ uniqueElements s')). by rewrite Hu.
  - unfold s'. rewrite remove_effect, add_fresh by done. done.
Qed.

Lemma add_then_remove_restores_witness :
  let options := Options by_rank (Some 3) in
  let s := run options [Add (VNum 1); Add (VNum 3)] initial in
  (consistent (sortFn options) ∧ reachable options s ∧ VNum 2 ≠ VNaN ∧
   eval (has (VNum 2)) s = false ∧
   overflows options (published s ++ [VNum 2]) = false) ∧
  published (exec (remove options (VNum 2)) (exec (add options (VNum 2)) s)) =
    published s.
Proof.
  intros options s.
  assert (reachable options s) as Hreach by (by eexists).
  assert (VNum 2 ≠ VNaN) as Hnan by discriminate.
  split; [split; [exact by_rank_consistent|split; [exact Hreach|split;
    [exact Hnan|split; reflexivity]]]|].
  exact (proj1 (add_then_remove_restores options (VNum 2) s by_rank_consistent Hreach
                  eq_refl Hnan eq_refl eq_refl)).
Defined.

(** X8: with a consistent comparator and in every store state, a second
    [remove] of the same element changes neither the published sequence
    nor the index; it only publishes once more. *)
Theorem remove_twice_same (options : SortedArraySetOptions) (e : value) (s : store) :
  consistent (sortFn options) →
  let s1 := exec (remove options e) s in
  let s2 := exec (remove options e) s1 in
  published s2 = published s1 ∧
  uniqueElements s2 = uniqueElements s1 ∧
  publications s2 = S (publications s1).
Proof.
  intros Hcmp s1 s2. unfold s2, s1.
  rewrite !remove_effect, !published_fresh. simpl. split; [|split; [set_solver|done]].
  unfold removed_snapshot at 1.
  rewrite filter_all.
  - apply js_sort_id. unfold removed_snapshot. by apply js_sort_sorted.
  - intros y Hy. apply elem_of_removed_snapshot in Hy as [_ Hy]. by rewrite Hy.
Qed.

Lemma remove_twice_same_witness :
  let options := Options by_rank None in
  let s := run options [Add (VNum 3); Add (VNum 1)] initial in
  consistent (sortFn options) ∧
  published (exec (remove options (VNum 3)) (exec (remove options (VNum 3)) s)) =
    published (exec (remove options (VNum 3)) s).
Proof.
  intros options s. split; [exact by_rank_consistent|].
  exact (proj1 (remove_twice_same options (VNum 3) s by_rank_consistent)).
Defined.

(** ** What the calls depend on, and what [clear] resets *)

(** What a call publishes and leaves in the index is decided by the
    published sequence and the index it finds. *)
Lemma perform_observable (options : SortedArraySetOptions) (c : call) (s1 s2 : store) :
  published s1 = published s2 → uniqueElements s1 = uniqueElements s2 →
  published (exec (perform options c) s1) = published (exec (perform options c) s2) ∧
  uniqueElements (exec (perform options c) s1) =
    uniqueElements (exec (perform options c) s2).
Proof.
  intros Hp Hu. destruct c as [e|e|]; cbn [perform].
  - destruct (loose_equals_null e) eqn:Hn.
    { rewrite !add_nullish by done. by split. }
    destruct (decide (e ∈ uniqueElements s1)) as [Hin|Hin].
    + rewrite (add_present options e s1), (add_present options e s2);
        [by split|done|by rewrite <-Hu|done|done].
    + rewrite (add_fresh options e s1), (add_fresh options e s2);
        [|done|by rewrite <-Hu|done|done].
      rewrite !published_fresh. simpl. by rewrite Hp, Hu.
  - rewrite !remove_effect, !published_fresh. simpl. by rewrite Hp, Hu.
  - rewrite !clear_effect, !published_fresh. by split.
Qed.

Lemma run_observable (options : SortedArraySetOptions) (cs : list call) (s1 s2 : store) :
  published s1 = published s2 → uniqueElements s1 = uniqueElements s2 →
  published (run options cs s1) = published (run options cs s2) ∧
  uniqueElements (run options cs s1) = uniqueElements (run options cs s2).
Proof.
  intros Hp Hu. induction cs as [|c cs [IHp IHu]] using rev_ind; [by split|].
  rewrite !run_snoc. by apply perform_observable.
Qed.

(** X9: after [clear], whatever the store held, every sequence of calls
    publishes the sequence and leaves the index that it would on a newly
    created store. *)
Theorem clear_starts_afresh (options : SortedArraySetOptions) (s : store)
    (cs : list call) :
  let after := run options cs (exec clear s) in
  let fresh := run options cs initial in
  published after = published fresh ∧
  uniqueElements after = uniqueElements fresh ∧
  (∀ e, eval (has e) after = eval (has e) fresh).
Proof.
  intros after fresh.
  destruct (run_observable options cs (exec clear s) initial) as [Hp Hu].
  { by rewrite clear_effect, published_fresh. }
  { by rewrite clear_effect. }
  split; [done|]. split; [done|].
  intros e. unfold after, fresh, eval, has, set_has. simpl. by rewrite Hu.
Qed.

(** ** More on [getTopN] *)

(** X10: for a negative [n], [getTopN(n)] carries each snapshot of the
    parent without its last [-n] elements (all of it gone when it has no
    more than [-n]). *)
Theorem getTopN_negative_drops_last (n : Z) (s : store) :
  n < 0 →
  getTopN n s = map (λ l, take (length l - Z.to_nat (- n)) l) (emissions s).
Proof.
  intros Hn. unfold getTopN. apply map_ext. intros l.
  by apply js_slice0_negative.
Qed.

Lemma getTopN_negative_drops_last_witness :
  let s := run (Options by_rank None)
             [Add (VNum 1); Add (VNum 2); Add (VNum 3)] initial in
  -2 < 0 ∧
  last (getTopN (-2) s) = Some [VNum 1] ∧
  getTopN (-2) s = map (λ l, take (length l - Z.to_nat (- -2)) l) (emissions s).
Proof.
  intros s. split; [lia|]. split; [reflexivity|].
  exact (getTopN_negative_drops_last (-2) s ltac:(lia)).
Defined.

(** Every array [data$] has delivered respects the bound. *)
Lemma reachable_snapshots_bounded (options : SortedArraySetOptions) (m : Z) (s : store) :
  maxSize options = Some m → 0 <= m → reachable options s →
  ∀ r, r ∈ snapshots s → Z.of_nat (length (deref s r)) <= m.
Proof.
  intros Hmax Hpos [cs ->].
  cut (snapshots_allocated (run options cs initial) ∧
       ∀ r, r ∈ snapshots (run options cs initial) →
            Z.of_nat (length (deref (run options cs initial) r)) <= m).
  { by intros [_ ?]. }
  apply (run_preserves options
           (λ s, snapshots_allocated s ∧
                 ∀ r, r ∈ snapshots s → Z.of_nat (length (deref s r)) <= m)
           (λ _, True)); [| |by apply Forall_forall].
  - split.
    + intros r ->%list_elem_of_singleton. simpl. lia.
    + intros r ->%list_elem_of_singleton. simpl. lia.
  - intros c s _ [Halloc Hlen].
    split; [by apply perform_snapshots_allocated|].
    assert (Z.of_nat (length (published s)) <= m) as Hcur.
    { apply Hlen. by left. }
    pose proof (perform_bounded options m c s Hmax Hpos Hcur) as Hnew.
    destruct (perform_heap_grows options c s) as [new Hheap].
    assert (∀ r, r ∈ snapshots s → deref (exec (perform options c) s) r = deref s r)
      as Hsame.
    { intros r Hr. unfold deref. rewrite Hheap.
      by rewrite lookup_app_l by by apply Halloc. }
    intros r Hr.
    destruct (perform_snapshots options c s) as [Heq|[Heq _]]; rewrite Heq in Hr.
    + rewrite Hsame by done. by apply Hlen.
    + apply elem_of_cons in Hr as [->|Hr].
      * assert (data_value (exec (perform options c) s) = length (heap s)) as <-
          by (by injection Heq).
        exact Hnew.
      * rewrite Hsame by done. by apply Hlen.
Qed.

(** X11: with [maxSize = m] and [n] at least [m], [getTopN(n)] carries
    the parent's snapshots unchanged, after each call of any sequence of
    calls. *)
Theorem getTopN_wide_is_identity (options : SortedArraySetOptions) (m n : Z)
    (cs : list call) (k : nat) :
  maxSize options = Some m → 0 <= m → m <= n →
  let s := run options (take k cs) initial in
  getTopN n s = emissions s.
Proof.
  intros Hmax Hpos Hn s.
  assert (reachable options s) as Hreach by (by eexists).
  pose proof (reachable_snapshots_bounded options m s Hmax Hpos Hreach) as Hlen.
  unfold getTopN. rewrite <-(map_id (emissions s)) at 2.
  apply map_ext_in. intros l Hl.
  assert (Z.of_nat (length l) <= m) as Hl'.
  { unfold emissions in Hl. apply in_rev, in_map_iff in Hl as (r & <- & Hr).
    by apply Hlen, list_elem_of_In. }
  unfold js_slice0. rewrite (proj2 (Z.ltb_ge n 0)) by lia.
  rewrite Z.min_r by lia. rewrite Nat2Z.id. by apply take_ge.
Qed.

Lemma getTopN_wide_is_identity_witness :
  let options := Options by_rank (Some 2) in
  (maxSize options = Some 2 ∧ 0 <= 2 ∧ 2 <= 5) ∧
  getTopN 5 (run options (take 3 [Add (VNum 3); Add (VNum 1); Add (VNum 2)]) initial) =
    emissions (run options (take 3 [Add (VNum 3); Add (VNum 1); Add (VNum 2)]) initial).
Proof.
  intros options. split; [split; [reflexivity|lia]|].
  exact (getTopN_wide_is_identity options 2 5
           [Add (VNum 3); Add (VNum 1); Add (VNum 2)] 3 eq_refl ltac:(lia) ltac:(lia)).
Defined.

(** ** Arrays and warnings *)


(** X13: the console holds one warning per [add(null)] or
    [add(undefined)] call and nothing else: no other call logs. *)
Theorem warnings_count_null_adds (options : SortedArraySetOptions) (cs : list call) :
  console (run options cs initial) =
    replicate (length (List.filter warns cs))
      "Cannot add null or undefined to SortedArraySet".
Proof.
  induction cs as [|c cs IH] using rev_ind; [done|].
  rewrite run_snoc, List.filter_app, length_app, replicate_add.
  set (s := run options cs initial) in *.
  destruct c as [e|e|]; cbn [perform warns List.filter].
  - destruct (add_cases options e s) as [[Hn ->]|[(Hn & _ & ->)|(Hn & _ & ->)]];
      rewrite Hn; simpl; rewrite IH; [done|by rewrite app_nil_r..].
  - rewrite remove_effect. simpl. by rewrite IH, app_nil_r.
  - rewrite clear_effect. simpl. by rewrite IH, app_nil_r.
Qed.

(** ** The order of the [add] calls *)

Lemma additions_unbounded (options : SortedArraySetOptions) (es : list value) :
  maxSize options = None →
  ∀ x, x ∈ published (run options (Add <$> es) initial) ↔
       x ∈ es ∧ loose_equals_null x = false.
Proof.
  intros Hmax. induction es as [|e es IH] using rev_ind.
  { intros x. split; [by intros Hx; inv Hx|by intros [Hx _]; inv Hx]. }
  rewrite fmap_app. change (Add <$> [e]) with [Add e]. rewrite run_snoc.
  pose proof (additions_in_sync options es) as [Hiff _].
  set (s := run options (Add <$> es) initial) in *.
  intros x. rewrite elem_of_app, list_elem_of_singleton. cbn [perform].
  destruct (add_cases options e s) as [[Hn ->]|[(Hn & Hin & ->)|(Hn & Hin & ->)]].
  - change (published (with_console _ s)) with (published s). rewrite IH.
    split; [naive_solver|]. intros [[?| ->] ?]; [done|congruence].
  - rewrite IH. split; [naive_solver|]. intros [[?| ->] ?]; [done|].
    by apply IH, Hiff.
  - rewrite published_fresh.
    assert (overflows options (js_sort (sortFn options) (published s ++ [e])) = false)
      as Hov by (unfold overflows; by rewrite Hmax).
    destruct (added_no_overflow options e (published s) (uniqueElements s) Hov)
      as [-> _].
    rewrite js_sort_elem_of, elem_of_app, list_elem_of_singleton, IH.
    split; [|naive_solver]. intros [[? ?]| ->]; [naive_solver|]. split; [by right|done].
Qed.

(** Two selections of the smallest elements of the same set are the
    same selection when the comparator ties no two of the elements. *)
Lemma keeps_smallest_unique (options : SortedArraySetOptions) (m : Z)
    (A : gset value) (s1 s2 : store) :
  consistent (sortFn options) → tie_free (sortFn options) (elements A) →
  keeps_smallest options m A s1 → keeps_smallest options m A s2 →
  defined_elements s1 → defined_elements s2 →
  NoDup (published s1) → NoDup (published s2) →
  ∀ x, x ∈ published s1 → x ∈ published s2.
Proof.
  intros Hcmp Hfree (Hsub1 & Hrest1 & Hlen1) (Hsub2 & Hrest2 & Hlen2)
    Hdef1 Hdef2 Hnd1 Hnd2 x Hx1.
  destruct (decide (x ∈ published s2)) as [|Hx2]; [done|]. exfalso.
  destruct (decide (Forall (λ y, y ∈ published s1) (published s2))) as [Hall|Hnot].
  - assert (length (published s2) < size (list_to_set (published s1) : gset value))%nat
      as Hlt.
    { apply (length_lt_size _ _ x); [done| |by apply elem_of_list_to_set|done].
      intros y Hy. apply elem_of_list_to_set. by eapply (proj1 (Forall_forall _ _) Hall). }
    rewrite size_list_to_set in Hlt by done. lia.
  - assert (Exists (not ∘ (λ y, y ∈ published s1)) (published s2)) as Hex.
    { apply not_Forall_Exists; [apply _|done]. }
    apply Exists_exists in Hex as (y & Hy2 & Hy1). simpl in Hy1.
    assert (sort_le (sortFn options) x y) as Hxy.
    { apply Hrest1; [by apply Hsub2|done..]. }
    assert (sort_le (sortFn options) y x) as Hyx.
    { apply Hrest2; [by apply Hsub1|done..]. }
    assert (x ≠ VUndefined) as Hxdef.
    { apply loose_equals_null_defined. by eapply (proj1 (Forall_forall _ _) Hdef1). }
    assert (y ≠ VUndefined) as Hydef.
    { apply loose_equals_null_defined. by eapply (proj1 (Forall_forall _ _) Hdef2). }
    unfold sort_le in Hxy, Hyx.
    rewrite sort_compare_defined in Hxy by done.
    rewrite sort_compare_defined in Hyx by done.
    pose proof (consistent_sign _ Hcmp x y) as Hsign.
    assert (sortFn options x y = 0) as Hzero by lia.
    apply Hy1. rewrite <-(Hfree x y); [done| | |done].
    + by apply elem_of_elements, Hsub1.
    + by apply elem_of_elements, Hsub2.
Qed.

(** X14: with a consistent comparator that ties no two of the elements
    added, the published sequence and the index after a series of [add]
    calls do not depend on the order of the calls. *)
Theorem add_order_irrelevant (options : SortedArraySetOptions) (es1 es2 : list value) :
  consistent (sortFn options) → tie_free (sortFn options) es1 →
  es1 ≡ₚ es2 →
  published (run options (Add <$> es1) initial) =
    published (run options (Add <$> es2) initial) ∧
  uniqueElements (run options (Add <$> es1) initial) =
    uniqueElements (run options (Add <$> es2) initial).
Proof.
  intros Hcmp Hfree Hperm.
  pose proof (additions_in_sync options es1) as [Hiff1 Hnd1].
  pose proof (additions_in_sync options es2) as [Hiff2 Hnd2].
  pose proof (reachable_sorted options _ Hcmp (additions_reachable options es1)) as Hs1.
  pose proof (reachable_sorted options _ Hcmp (additions_reachable options es2)) as Hs2.
  pose proof (reachable_defined_elements options _ (additions_reachable options es1))
    as Hdef1.
  pose proof (reachable_defined_elements options _ (additions_reachable options es2))
    as Hdef2.
  set (s1 := run options (Add <$> es1) initial) in *.
  set (s2 := run options (Add <$> es2) initial) in *.
  assert (∀ x, x ∈ published s1 → x ∈ es1) as Hfrom1.
  { intros x Hx. destruct (maxSize options) as [m|] eqn:Hmax.
    - destruct (decide (0 <= m)) as [Hpos|Hneg].
      + destruct (additions_keep_smallest options m es1 Hmax Hpos Hcmp) as (Hsub & _).
        apply Hsub, elem_of_list_to_set, list_elem_of_filter in Hx. by destruct Hx.
      + destruct (nonpositive_bound_empty options m (Add <$> es1) Hmax) as (Hp & _);
          [lia|]. fold s1 in Hp. rewrite Hp in Hx. inv Hx.
    - by apply (additions_unbounded options es1 Hmax) in Hx as [? _]. }
  assert (∀ x, x ∈ published s1 ↔ x ∈ published s2) as Hset.
  { destruct (maxSize options) as [m|] eqn:Hmax.
    - destruct (decide (0 <= m)) as [Hpos|Hneg].
      + pose proof (additions_keep_smallest options m es1 Hmax Hpos Hcmp) as Hk1.
        pose proof (additions_keep_smallest options m es2 Hmax Hpos Hcmp) as Hk2.
        fold s1 in Hk1. fold s2 in Hk2. rewrite <-Hperm in Hk2.
        set (A := list_to_set _) in *.
        assert (tie_free (sortFn options) (elements A)) as HfreeA.
        { intros a b Ha Hb. apply Hfree.
          - apply elem_of_elements, elem_of_list_to_set, list_elem_of_filter in Ha.
            by destruct Ha.
          - apply elem_of_elements, elem_of_list_to_set, list_elem_of_filter in Hb.
            by destruct Hb. }
        intros x. split.
        * by apply (keeps_smallest_unique options m A s1 s2).
        * by apply (keeps_smallest_unique options m A s2 s1).
      + destruct (nonpositive_bound_empty options m (Add <$> es1) Hmax) as (Hp1 & _);
          [lia|].
        destruct (nonpositive_bound_empty options m (Add <$> es2) Hmax) as (Hp2 & _);
          [lia|].
        fold s1 in Hp1. fold s2 in Hp2. intros x. by rewrite Hp1, Hp2.
    - intros x. unfold s1, s2. rewrite !additions_unbounded by done.
      by rewrite Hperm. }
  assert (published s1 = published s2) as Heq.
  { apply (StronglySorted_unique_strong (sort_le (sortFn options))); [|done..|].
    - intros x y Hx Hy Hxy Hyx. apply Hset in Hy.
      assert (x ≠ VUndefined) as Hxdef.
      { apply loose_equals_null_defined. by eapply (proj1 (Forall_forall _ _) Hdef1). }
      assert (y ≠ VUndefined) as Hydef.
      { apply loose_equals_null_defined. by eapply (proj1 (Forall_forall _ _) Hdef1). }
      unfold sort_le in Hxy, Hyx.
      rewrite sort_compare_defined in Hxy by done.
      rewrite sort_compare_defined in Hyx by done.
      pose proof (consistent_sign _ Hcmp x y) as Hsign.
      apply Hfree; [by apply Hfrom1..|lia].
    - by apply NoDup_Permutation. }
  split; [done|].
  apply set_eq. intros x. by rewrite Hiff1, Hiff2, Heq.
Qed.

Lemma by_rank_tie_free_numbers :
  tie_free by_rank [VNum 3; VNum 1; VNum 2].
Proof.
  assert (∀ v, v ∈ [VNum 3; VNum 1; VNum 2] →
               v = VNum 3 ∨ v = VNum 1 ∨ v = VNum 2) as Hcases.
  { intros v Hv. rewrite !elem_of_cons in Hv.
    destruct Hv as [?|[?|[?|Hv]]]; [tauto..|inv Hv]. }
  intros a b Ha Hb Hab.
  destruct (Hcases a Ha) as [?|[?|?]], (Hcases b Hb) as [?|[?|?]]; subst;
    first [reflexivity|vm_compute in Hab; discriminate].
Qed.

Lemma add_order_irrelevant_witness :
  let options := Options by_rank (Some 2) in
  (consistent (sortFn options) ∧
   tie_free (sortFn options) [VNum 3; VNum 1; VNum 2] ∧
   [VNum 3; VNum 1; VNum 2] ≡ₚ [VNum 1; VNum 2; VNum 3]) ∧
  published (run options (Add <$> [VNum 3; VNum 1; VNum 2]) initial) =
    published (run options (Add <$> [VNum 1; VNum 2; VNum 3]) initial).
Proof.
  intros options.
  assert ([VNum 3; VNum 1; VNum 2] ≡ₚ [VNum 1; VNum 2; VNum 3]) as Hperm.
  { exact (Permutation_cons_append [VNum 1; VNum 2] (VNum 3)). }
  split; [split; [exact by_rank_consistent|split;
    [exact by_rank_tie_free_numbers|exact Hperm]]|].
  exact (proj1 (add_order_irrelevant options [VNum 3; VNum 1; VNum 2]
                  [VNum 1; VNum 2; VNum 3]
                  by_rank_consistent by_rank_tie_free_numbers Hperm)).
Defined.

(** ** Instances of the two facts about [remove] and the index *)


